(** * Text normalisation pipeline of the Twitter sentiment study

    A shallow embedding of the cleaning functions of
    [notebooks/data-cleaning.ipynb] ([remove_noise_texts], [remove_stopwords],
    [negation_handle], [remove_non_alpha], [remove_spaces],
    [remove_short_words], [lemmatize], [data_cleaning]) and of the row filter
    that follows them, with the properties the specification states.

    Characters.  The notebook loads the corpus with
    [encoding = "ISO-8859-1"], so every character of a tweet is a code point
    below 256.  A Python [str] is therefore modelled as a list of [ascii]
    (eight-bit characters read as Latin-1 code points), and the character
    tables of Python ([str.isspace], [str.lower], the classes [\s] and [\w]
    of [re]) are written out on that range.

    External collaborators.  [contractions.fix], the NLTK stop word list,
    [nltk.pos_tag] and [WordNetLemmatizer.lemmatize] are not code of the
    repository; they are Section variables below. *)

From Stdlib Require Import Bool Arith Lia NArith Ascii String List Sorted.
Import ListNotations.

(** ** Strings and character tables *)

Definition str : Type := list ascii.

(** String literals of the notebook, as character lists. *)
Definition txt (lit : string) : str := list_ascii_of_string lit.

Definition code (c : ascii) : N := N_of_ascii c.

Definition in_range (lo hi : N) (c : ascii) : bool :=
  (lo <=? code c)%N && (code c <=? hi)%N.

(** [[a-z]] and [[A-Z]]. *)
Definition is_lower (c : ascii) : bool := in_range 97 122 c.
Definition is_upper (c : ascii) : bool := in_range 65 90 c.
Definition is_alpha (c : ascii) : bool := is_lower c || is_upper c.

(** [str.isspace] and the class [\s] on Latin-1: TAB..CR, FS..US, space,
    NEL and the no-break space. *)
Definition is_space (c : ascii) : bool :=
  in_range 9 13 c || in_range 28 32 c || (code c =? 133)%N || (code c =? 160)%N.

(** The class [\w] on Latin-1: [str.isalnum] or the underscore. *)
Definition is_word (c : ascii) : bool :=
  in_range 48 57 c || is_alpha c || (code c =? 95)%N
  || (code c =? 170)%N || (code c =? 178)%N || (code c =? 179)%N
  || (code c =? 181)%N || (code c =? 185)%N || (code c =? 186)%N
  || in_range 188 190 c
  || (in_range 192 255 c && negb (code c =? 215)%N && negb (code c =? 247)%N).

(** [str.lower] on one Latin-1 character: [A-Z] and the accented capitals
    0xC0..0xDE (the multiplication sign apart) move up by 32. *)
Definition lower_char (c : ascii) : ascii :=
  if is_upper c || (in_range 192 222 c && negb (code c =? 215)%N)
  then ascii_of_N (code c + 32) else c.

Definition lower (text : str) : str := map lower_char text.

Definition space : ascii := " "%char.

(** [sep.join(words)] *)
Fixpoint join (sep : str) (words : list str) : str :=
  match words with
  | [] => []
  | [w] => w
  | w :: ws => w ++ sep ++ join sep ws
  end.

(** [text.split()]: the maximal runs of non-whitespace characters. *)
Fixpoint split (text : str) : list str :=
  match text with
  | [] => []
  | c :: text' =>
      if is_space c then split text'
      else match text' with
           | [] => [[c]]
           | c' :: _ =>
               if is_space c' then [c] :: split text'
               else match split text' with
                    | w :: ws => (c :: w) :: ws
                    | [] => [[c]]
                    end
           end
  end.

Fixpoint lstrip (text : str) : str :=
  match text with
  | c :: text' => if is_space c then lstrip text' else text
  | [] => []
  end.

Definition rstrip (text : str) : str := rev (lstrip (rev text)).

(** [text.strip()] *)
Definition strip (text : str) : str := rstrip (lstrip text).

Definition str_eqb (a b : str) : bool :=
  if list_eq_dec ascii_dec a b then true else false.

(** [word in words] *)
Definition mem (word : str) (words : list str) : bool :=
  existsb (str_eqb word) words.

(** A token: not empty and free of whitespace. *)
Definition is_token (w : str) : Prop :=
  w <> [] /\ Forall (fun c => is_space c = false) w.

(** No two whitespace characters in a row. *)
Fixpoint no_double_space (text : str) : bool :=
  match text with
  | c :: (c' :: _) as text' =>
      negb (is_space c && is_space c') && no_double_space text'
  | _ => true
  end.

(** The longest prefix of [text] whose characters satisfy [p], and what is
    left behind it. *)
Fixpoint take_while (p : ascii -> bool) (text : str) : str :=
  match text with
  | c :: text' => if p c then c :: take_while p text' else []
  | [] => []
  end.

Fixpoint drop_while (p : ascii -> bool) (text : str) : str :=
  match text with
  | c :: text' => if p c then drop_while p text' else text
  | [] => []
  end.

(** [text] does not start with a character that satisfies [p]. *)
Definition stops (p : ascii -> bool) (text : str) : Prop :=
  match text with c :: _ => p c = false | [] => True end.

(** [text] without its prefix [w], if it starts with [w]. *)
Fixpoint strip_prefix (w text : str) : option str :=
  match w with
  | [] => Some text
  | a :: w' =>
      match text with
      | c :: text' => if Ascii.eqb a c then strip_prefix w' text' else None
      | [] => None
      end
  end.

(** [text.startswith(needle)] *)
Fixpoint starts_with (needle text : str) : bool :=
  match needle, text with
  | [], _ => true
  | a :: needle', c :: text' => Ascii.eqb a c && starts_with needle' text'
  | _ :: _, [] => false
  end.

(** [needle in text] *)
Fixpoint contains (needle text : str) : bool :=
  starts_with needle text
  || match text with
     | [] => false
     | _ :: text' => contains needle text'
     end.

(** The character before the cursor once [w] has been read. *)
Definition last_of (pv : option ascii) (w : str) : option ascii :=
  match w with
  | [] => pv
  | c :: w' => Some (last w' c)
  end.

(** ** The fragment of Python's [re] the notebook uses

    A backtracking matcher: [rmatch r st] lists, in the order in which the
    engine tries them, the states in which [r] can leave the subject when
    started in [st].  The engine's answer is the head of that list. *)

Inductive regex : Type :=
| Eps
| Chr (c : ascii)                 (* a literal character *)
| Dot                             (* [.]: anything but a newline *)
| Cls (p : ascii -> bool)         (* a character class *)
| Cat (r1 r2 : regex)
| Alt (r1 r2 : regex)             (* [r1|r2], [r1] first *)
| Plus (r : regex)                (* greedy [r+] *)
| Opt (r : regex)                 (* greedy [r?] *)
| Grp (n : nat) (r : regex)       (* capturing group number [n] *)
| Ref (n : nat)                   (* backreference [\n] *)
| Bnd.                            (* [\b] *)

Record mstate : Type := MState {
  prev : option ascii;            (* the character before the cursor *)
  rest : str;                     (* the subject from the cursor on *)
  caps : list (nat * str)         (* the groups captured so far *)
}.

Fixpoint get_cap (n : nat) (cs : list (nat * str)) : option str :=
  match cs with
  | [] => None
  | (k, w) :: cs' => if Nat.eqb k n then Some w else get_cap n cs'
  end.

Definition eat (c : ascii) (text : str) (st : mstate) : mstate :=
  {| prev := Some c; rest := text; caps := caps st |}.

Definition step_char (p : ascii -> bool) (st : mstate) : list mstate :=
  match rest st with
  | c :: text => if p c then [eat c text st] else []
  | [] => []
  end.

(** Consume the literal [w]. *)
Fixpoint step_lit (w : str) (st : mstate) : list mstate :=
  match w with
  | [] => [st]
  | a :: w' =>
      match rest st with
      | c :: text => if Ascii.eqb a c then step_lit w' (eat c text st) else []
      | [] => []
      end
  end.

Definition word_before (st : mstate) : bool :=
  match prev st with Some c => is_word c | None => false end.

Definition word_after (st : mstate) : bool :=
  match rest st with c :: _ => is_word c | [] => false end.

(** The text consumed between two states of one attempt. *)
Definition consumed (st st' : mstate) : str :=
  firstn (length (rest st) - length (rest st')) (rest st).

Definition set_cap (n : nat) (st st' : mstate) : mstate :=
  {| prev := prev st'; rest := rest st';
     caps := (n, consumed st st') :: caps st' |}.

(** Greedy iteration: after one round of the body, further rounds are tried
    before stopping; a round that consumed nothing is not repeated. *)
Fixpoint iter_plus (body : mstate -> list mstate) (fuel : nat) (st : mstate)
  : list mstate :=
  match fuel with
  | 0 => []
  | S fuel' =>
      flat_map (fun st' =>
                  (if length (rest st') <? length (rest st)
                   then iter_plus body fuel' st' else []) ++ [st'])
               (body st)
  end.

Fixpoint rmatch (r : regex) {struct r} : mstate -> list mstate :=
  match r with
  | Eps => fun st => [st]
  | Chr a => step_char (Ascii.eqb a)
  | Dot => step_char (fun c => negb (Ascii.eqb c "010"%char))
  | Cls p => step_char p
  | Cat r1 r2 => fun st => flat_map (rmatch r2) (rmatch r1 st)
  | Alt r1 r2 => fun st => rmatch r1 st ++ rmatch r2 st
  | Plus r1 => fun st => iter_plus (rmatch r1) (S (length (rest st))) st
  | Opt r1 => fun st => rmatch r1 st ++ [st]
  | Grp n r1 => fun st => map (set_cap n st) (rmatch r1 st)
  | Ref n =>
      fun st => match get_cap n (caps st) with
                | Some w => step_lit w st
                | None => []
                end
  | Bnd => fun st => if xorb (word_before st) (word_after st) then [st] else []
  end.

(** A literal word inside a pattern. *)
Fixpoint Lit (w : str) : regex :=
  match w with
  | [] => Eps
  | [c] => Chr c
  | c :: w' => Cat (Chr c) (Lit w')
  end.

(** The match object handed to a replacement: group 0 and the groups. *)
Record mobj : Type := MObj { group0 : str; groups : list (nat * str) }.

(** [match.group(n)]; a group that did not take part reads as empty in a
    replacement template. *)
Definition group (n : nat) (m : mobj) : str :=
  match n with
  | 0 => group0 m
  | _ => match get_cap n (groups m) with Some w => w | None => [] end
  end.

Inductive titem : Type :=
| TLit (c : ascii)
| TGrp (n : nat).

(** A replacement template such as [\1NEG\2]. *)
Definition expand (tpl : list titem) (m : mobj) : str :=
  flat_map (fun it => match it with TLit c => [c] | TGrp n => group n m end) tpl.

Definition is_nil (w : str) : bool := match w with [] => true | _ => false end.

(** The first way [r] matches at the cursor; after an empty match the engine
    refuses a second empty match at the same place ([must_advance]). *)
Definition match_here (r : regex) (pv : option ascii) (text : str)
  (must_advance : bool) : option mstate :=
  find (fun st' => negb (must_advance && (length (rest st') =? length text)))
       (rmatch r {| prev := pv; rest := text; caps := [] |}).

(** The loop of [re.sub]: replace the match at the cursor and go on behind
    it, or copy one character and try at the next position. *)
Fixpoint sub_loop (r : regex) (repl : mobj -> str) (fuel : nat)
  (pv : option ascii) (text : str) (must_advance : bool) : str :=
  match fuel with
  | 0 => text
  | S fuel' =>
      match match_here r pv text must_advance with
      | Some st' =>
          let g0 := firstn (length text - length (rest st')) text in
          repl {| group0 := g0; groups := caps st' |}
            ++ sub_loop r repl fuel' (prev st') (rest st') (is_nil g0)
      | None =>
          match text with
          | [] => []
          | c :: text' => c :: sub_loop r repl fuel' (Some c) text' false
          end
      end
  end.

(** [re.sub(r, repl, text)] *)
Definition re_sub (r : regex) (repl : mobj -> str) (text : str) : str :=
  sub_loop r repl (2 * length text + 2) None text false.

(** ** The patterns of the notebook *)

Definition not_space (c : ascii) : bool := negb (is_space c).

(** [\S+@\S+] *)
Definition email_re : regex :=
  Cat (Plus (Cls not_space)) (Cat (Chr "@") (Plus (Cls not_space))).

(** [(@|#)\S+] *)
Definition mention_hashtag_re : regex :=
  Cat (Grp 1 (Alt (Chr "@") (Chr "#"))) (Plus (Cls not_space)).

(** [((www\.\S+)|(https?://\S+))|(\S+\.com)] *)
Definition link_re : regex :=
  Alt (Grp 1 (Alt (Grp 2 (Cat (Lit (txt "www.")) (Plus (Cls not_space))))
                  (Grp 3 (Cat (Lit (txt "http"))
                         (Cat (Opt (Chr "s"))
                         (Cat (Lit (txt "://")) (Plus (Cls not_space))))))))
      (Grp 4 (Cat (Plus (Cls not_space)) (Lit (txt ".com")))).

(** [(.)\1\1+] *)
Definition repeating_suff_re : regex :=
  Cat (Grp 1 Dot) (Cat (Ref 1) (Plus (Ref 1))).

(** The cue words, [(?:not|no|never|cannot)]. *)
Definition cue_re : regex :=
  Alt (Lit (txt "not")) (Alt (Lit (txt "no"))
      (Alt (Lit (txt "never")) (Lit (txt "cannot")))).

(** [\b(?:not|no|never|cannot)\b\s+[a-z]+] *)
Definition negation_re : regex :=
  Cat Bnd (Cat cue_re (Cat Bnd (Cat (Plus (Cls is_space)) (Plus (Cls is_lower))))).

(** [(\s+)(\w+)] *)
Definition space_word_re : regex :=
  Cat (Grp 1 (Plus (Cls is_space))) (Grp 2 (Plus (Cls is_word))).

(** [[^a-zA-Z]] *)
Definition non_alpha_digit_re : regex := Cls (fun c => negb (is_alpha c)).

(** [\s\s+] *)
Definition multi_spaces_re : regex := Cat (Cls is_space) (Plus (Cls is_space)).

(** The marker put in front of a negated word. *)
Definition NEG : str := txt "NEG".

(** ** The cleaning functions *)

Definition remove_noise_texts (text : str) : str :=
  let text := re_sub repeating_suff_re (expand [TGrp 1]) text in
  let text := re_sub email_re (expand []) text in
  let text := re_sub mention_hashtag_re (expand []) text in
  let text := re_sub link_re (expand []) text in
  text.

Definition negation_handle (text : str) : str :=
  re_sub negation_re
    (fun m => re_sub space_word_re
                (expand ([TGrp 1] ++ map TLit NEG ++ [TGrp 2])) (group 0 m))
    text.

Definition remove_non_alpha (text : str) : str :=
  re_sub non_alpha_digit_re (expand [TLit space]) text.

Definition remove_spaces (text : str) : str :=
  re_sub multi_spaces_re (expand [TLit space]) text.

Definition remove_short_words (text : str) : str :=
  join [space] (filter (fun word => 1 <? length word) (split text)).

(** The tokens that [remove_short_words] keeps. *)
Definition long_words (text : str) : list str :=
  filter (fun word => 1 <? length word) (split (remove_non_alpha text)).

(** ** The stages of the pipeline *)

(** A stage maps a text to a text, or fails. *)
Definition stage : Type := str -> option str.

Definition total (f : str -> str) : stage := fun text => Some (f text).

(** A stage that runs only when its switch is on. *)
Definition when (switch : bool) (st : stage) : stage :=
  if switch then st else (fun text => Some text).

(** Run the stages from left to right, stopping at the first failure. *)
Definition run_stages (stages : list stage) (text : str) : option str :=
  fold_left (fun acc st => match acc with Some t => st t | None => None end)
            stages (Some text).

Section Notebook.

(** [contractions.fix] *)
Variable contractions_fix : str -> str.
(** [stopwords.words("english")] *)
Variable stop_words : list str.
(** [nltk.pos_tag]: the tokens with their part-of-speech tags. *)
Variable pos_tag : list str -> list (str * str).
(** [WordNetLemmatizer().lemmatize(word, pos = postag)] *)
Variable wordnet_lemmatize : str -> str -> str.

Definition expand_contractions (text : str) : str := contractions_fix text.

Definition remove_stopwords (text : str) (neg_keep : bool) : str :=
  let stop_word_list :=
    if neg_keep
    then filter (fun word => negb (mem word [txt "not"; txt "no"; txt "nor"]))
                stop_words
    else stop_words in
  join [space] (filter (fun word => negb (mem word stop_word_list)) (split text)).

(** One round of the loop of [lemmatize]; [tag[0]] raises on an empty tag,
    which is [None] here. *)
Definition lemmatize_word (wt : str * str) : option str :=
  let (word, tag) := wt in
  match tag with
  | [] => None
  | t0 :: _ =>
      let postag := [lower_char t0] in
      if mem postag [txt "a"; txt "n"; txt "v"; txt "r"]
      then Some (wordnet_lemmatize word postag)
      else Some word
  end.

Fixpoint lemmatize_loop (split_text : list (str * str)) : option (list str) :=
  match split_text with
  | [] => Some []
  | wt :: split_text' =>
      match lemmatize_word wt with
      | None => None
      | Some w =>
          match lemmatize_loop split_text' with
          | None => None
          | Some result => Some (w :: result)
          end
      end
  end.

Definition lemmatize (text : str) : option str :=
  option_map (join [space]) (lemmatize_loop (pos_tag (split text))).

(** [data_cleaning]; [None] stands for an exception. *)
Definition data_cleaning (text : str)
  (handle_neg remove_all_stopword is_lemmatized : bool) : option str :=
  let text := lower text in
  let text := expand_contractions text in
  let text := remove_noise_texts text in
  let text := if handle_neg
              then negation_handle (remove_stopwords text true)
              else text in
  let text := remove_non_alpha text in
  let text := remove_short_words text in
  let text := remove_spaces text in
  match (if is_lemmatized then lemmatize text else Some text) with
  | None => None
  | Some text =>
      let text := if remove_all_stopword
                  then remove_stopwords text false
                  else text in
      Some (strip text)
  end.

(** The text that reaches [remove_non_alpha]. *)
Definition tagged_text (text : str) (handle_neg : bool) : str :=
  let text := remove_noise_texts (expand_contractions (lower text)) in
  if handle_neg
  then negation_handle (remove_stopwords text true)
  else text.

(** The tokens of the result when the lemmatiser is off. *)
Definition final_words (text : str) (handle_neg remove_all_stopword : bool)
  : list str :=
  let words := long_words (tagged_text text handle_neg) in
  if remove_all_stopword
  then filter (fun word => negb (mem word stop_words)) words
  else words.

(** The ten steps of the specification, in its order; step 4 is two
    stages. *)
Definition pipeline_spec (handle_neg remove_all_stopword is_lemmatized : bool)
  : list stage :=
  [ total lower;
    total expand_contractions;
    total remove_noise_texts;
    when handle_neg (total (fun text => remove_stopwords text true));
    when handle_neg (total negation_handle);
    total remove_non_alpha;
    total remove_short_words;
    total remove_spaces;
    when is_lemmatized lemmatize;
    when remove_all_stopword
         (total (fun text => remove_stopwords text false));
    total strip ].

End Notebook.

(** ** Instances of the external collaborators

    Used to run the notebook's own examples.  Neither is code of the
    repository: [nltk_english] is the English stop word list of the NLTK
    corpus, [sample_fix] a contraction expander over the handful of
    contractions that the examples contain. *)

Definition nltk_english : list str := map txt
  [ "i"; "me"; "my"; "myself"; "we"; "our"; "ours"; "ourselves"; "you";
    "you're"; "you've"; "you'll"; "you'd"; "your"; "yours"; "yourself";
    "yourselves"; "he"; "him"; "his"; "himself"; "she"; "she's"; "her";
    "hers"; "herself"; "it"; "it's"; "its"; "itself"; "they"; "them";
    "their"; "theirs"; "themselves"; "what"; "which"; "who"; "whom"; "this";
    "that"; "that'll"; "these"; "those"; "am"; "is"; "are"; "was"; "were";
    "be"; "been"; "being"; "have"; "has"; "had"; "having"; "do"; "does";
    "did"; "doing"; "a"; "an"; "the"; "and"; "but"; "if"; "or"; "because";
    "as"; "until"; "while"; "of"; "at"; "by"; "for"; "with"; "about";
    "against"; "between"; "into"; "through"; "during"; "before"; "after";
    "above"; "below"; "to"; "from"; "up"; "down"; "in"; "out"; "on"; "off";
    "over"; "under"; "again"; "further"; "then"; "once"; "here"; "there";
    "when"; "where"; "why"; "how"; "all"; "any"; "both"; "each"; "few";
    "more"; "most"; "other"; "some"; "such"; "no"; "nor"; "not"; "only";
    "own"; "same"; "so"; "than"; "too"; "very"; "s"; "t"; "can"; "will";
    "just"; "don"; "don't"; "should"; "should've"; "now"; "d"; "ll"; "m";
    "o"; "re"; "ve"; "y"; "ain"; "aren"; "aren't"; "couldn"; "couldn't";
    "didn"; "didn't"; "doesn"; "doesn't"; "hadn"; "hadn't"; "hasn";
    "hasn't"; "haven"; "haven't"; "isn"; "isn't"; "ma"; "mightn";
    "mightn't"; "mustn"; "mustn't"; "needn"; "needn't"; "shan"; "shan't";
    "shouldn"; "shouldn't"; "wasn"; "wasn't"; "weren"; "weren't"; "won";
    "won't"; "wouldn"; "wouldn't" ]%string.

Definition sample_contractions : list (str * str) :=
  map (fun kv => (txt (fst kv), txt (snd kv)))
  [ ("it's", "it is"); ("don't", "do not"); ("dont", "do not");
    ("can't", "cannot"); ("he'll", "he will"); ("he's", "he is");
    ("i'm", "i am") ]%string.

Fixpoint lookup (key : str) (table : list (str * str)) : str :=
  match table with
  | [] => key
  | (k, v) :: table' => if str_eqb k key then v else lookup key table'
  end.

(** Whole-word replacement of the keys of [sample_contractions]. *)
Definition sample_fix (text : str) : str :=
  re_sub (Cat Bnd (Cat (fold_right (fun kv r => Alt (Lit (fst kv)) r)
                                   (Cls (fun _ => false)) sample_contractions)
                       Bnd))
         (fun m => lookup (group 0 m) sample_contractions)
         text.

(** A part-of-speech tagger that calls every token a noun, and a lemmatiser
    that leaves words as they are. *)
Definition sample_pos_tag (words : list str) : list (str * str) :=
  map (fun w => (w, txt "NN")) words.

Definition sample_lemmatize (word postag : str) : str := word.



(** A tagger that calls [big] an adjective ([JJ]) and every other token a
    plural noun ([NNS]), and a lemmatiser that shows what it was called
    with: the word, a slash and the [pos] argument. *)
Definition mixed_pos_tag (words : list str) : list (str * str) :=
  map (fun w => (w, if str_eqb w (txt "big") then txt "JJ" else txt "NNS"))
      words.

Definition marking_lemmatize (word postag : str) : str :=
  word ++ txt "/" ++ postag.

(** ** The rows of the data frame and the removal of empty texts *)

Record row : Type := Row {
  label : N;
  text_col : str;                 (* the column [text] *)
  neg_handled_text : str;
  normal_cleaned_text : str
}.

(** [df[df[col] != ''][[col, 'label']]], followed by [.values] on each of
    the two columns. *)
Definition drop_empty (col : row -> str) (df : list row) : list row :=
  filter (fun r => negb (is_nil (col r))) df.

Definition feature_vector (col : row -> str) (df : list row) : list str :=
  map col (drop_empty col df).

Definition target_vector (col : row -> str) (df : list row) : list N :=
  map label (drop_empty col df).

(** The positions, counted from [base], of the rows that are kept. *)
Fixpoint kept_positions (col : row -> str) (base : nat) (df : list row)
  : list nat :=
  match df with
  | [] => []
  | r :: df' =>
      if is_nil (col r) then kept_positions col (S base) df'
      else base :: kept_positions col (S base) df'
  end.

(** ** The notebook's examples *)

Definition jordan_tweet : str := txt
  "Just got an email from prankster@troll.com, I think it's @Jordan's troll. He told me in the mail that he really don't like my dog, but he did like a cat. #IHateJordan".

(** The tweet in lower case with its two contractions expanded. *)
Definition jordan_expanded : str := txt
  "just got an email from prankster@troll.com, i think it is @jordan's troll. he told me in the mail that he really do not like my dog, but he did like a cat. #ihatejordan".

Definition jordan_cleaned : str := txt
  "just got an email from think it is troll he told me in the mail that he really do not like my dog but he did like cat".

Definition someone_dotted : str := txt
  "...@someone_on_Twitter...feelingssssssssssss...#Tag".

Definition someone_sentence : str := txt
  "In twitter.com a setence can have an email email_123@abcd.nlp.com, it also mentions @someone_on_Twitter and has words with repeating last letter to express my feelingssssssssssss. Lastly #DontForgetTheHashTag".

(** ** What [negation_handle] does, in the words of the specification *)

(** The cue words. *)
Definition cues : list str :=
  [txt "not"; txt "no"; txt "never"; txt "cannot"].

(** A cue at the cursor: a cue word that is not glued to a word character
    in front of it, then whitespace [ws], then the lowercase word [w], which
    runs as far as lowercase letters go; [rest'] is what follows. *)
Inductive occurrence (pv : option ascii)
  : str -> str -> str -> str -> str -> Prop :=
| Occurrence cue ws w rest' :
    In cue cues ->
    match pv with Some c => is_word c = false | None => True end ->
    ws <> [] -> Forall (fun c => is_space c = true) ws ->
    w <> [] -> Forall (fun c => is_lower c = true) w ->
    match rest' with c :: _ => is_lower c = false | [] => True end ->
    occurrence pv (cue ++ ws ++ w ++ rest') cue ws w rest'.

(** Left to right: where a cue occurs, the word behind it gets the marker
    and the scan goes on behind that word; elsewhere one character is
    copied. *)
Inductive tagged : option ascii -> str -> str -> Prop :=
| tagged_end pv : tagged pv [] []
| tagged_cue pv text cue ws w rest' out :
    occurrence pv text cue ws w rest' ->
    tagged (Some (last w space)) rest' out ->
    tagged pv text (cue ++ ws ++ NEG ++ w ++ out)
| tagged_copy pv c text out :
    (forall cue ws w rest', ~ occurrence pv (c :: text) cue ws w rest') ->
    tagged (Some c) text out ->
    tagged pv (c :: text) (c :: out).

(** ** The shape of the cleaned text *)

(** What [remove_non_alpha] does to one character. *)
Definition blank (c : ascii) : ascii := if negb (is_alpha c) then space else c.

Definition lower_word (w : str) : Prop := Forall (fun c => is_lower c = true) w.




(** ** Closed forms used in the proofs *)

(** The states a greedy run of [p] can stop in, the longest run first. *)
Fixpoint greedy (p : ascii -> bool) (cs : list (nat * str)) (text : str)
  : list mstate :=
  match text with
  | c :: text' =>
      if p c then greedy p cs text' ++ [MState (Some c) text' cs] else []
  | [] => []
  end.

(** What follows a cue: [\b\s+[a-z]+]. *)
Definition after_cue (text : str) : list mstate :=
  match text with
  | c :: _ =>
      if is_space c then greedy is_lower [] (drop_while is_space text) else []
  | [] => []
  end.

(** The candidates at the cursor, cue by cue. *)
Definition cue_matches (text : str) : list mstate :=
  flat_map (fun cue => match strip_prefix cue text with
                       | Some text' => after_cue text'
                       | None => []
                       end) cues.

Definition word_char (pv : option ascii) : bool :=
  match pv with Some c => is_word c | None => false end.

(** The replacement function of [negation_handle]. *)
Definition neg_repl (m : mobj) : str :=
  re_sub space_word_re (expand ([TGrp 1] ++ map TLit NEG ++ [TGrp 2]))
         (group 0 m).

(** Predicates on the matcher's states: every character left in the
    subject or held in a group satisfies [P]. *)
Definition caps_ok (P : ascii -> Prop) (cs : list (nat * str)) : Prop :=
  Forall (fun kv => Forall P (snd kv)) cs.

Definition st_ok (P : ascii -> Prop) (st : mstate) : Prop :=
  Forall P (rest st) /\ caps_ok P (caps st).

(** A replacement that builds its text from the match and from characters
    that satisfy [P]. *)
Definition repl_ok (P : ascii -> Prop) (repl : mobj -> str) : Prop :=
  forall m, Forall P (group0 m) -> caps_ok P (groups m) -> Forall P (repl m).

(** ** Further notions used to state properties of the single stages *)

(** [a] is [b] with some characters left out. *)
Inductive subseq : str -> str -> Prop :=
| subseq_nil : subseq [] []
| subseq_skip a c b : subseq a b -> subseq a (c :: b)
| subseq_keep c a b : subseq a b -> subseq (c :: a) (c :: b).

(** [st'] is reached from [st] by reading [mid]; the groups of [st'] are
    those of [st] or pieces of [mid]. *)
Definition extends (st st' : mstate) : Prop :=
  exists mid,
    rest st = mid ++ rest st'
    /\ Forall (fun kv => In kv (caps st) \/ subseq (snd kv) mid) (caps st').

(** The run of [re.sub]'s loop as a relation between subject and result:
    at the cursor the first match is replaced, or one character is
    copied. *)
Inductive subst (r : regex) (repl : mobj -> str)
  : option ascii -> str -> bool -> str -> Prop :=
| subst_match pv text must_advance st' out :
    match_here r pv text must_advance = Some st' ->
    subst r repl (prev st') (rest st')
          (is_nil (firstn (length text - length (rest st')) text)) out ->
    subst r repl pv text must_advance
          (repl {| group0 := firstn (length text - length (rest st')) text;
                   groups := caps st' |} ++ out)
| subst_copy pv c text must_advance out :
    match_here r pv (c :: text) must_advance = None ->
    subst r repl (Some c) text false out ->
    subst r repl pv (c :: text) must_advance (c :: out)
| subst_end pv must_advance :
    match_here r pv [] must_advance = None ->
    subst r repl pv [] must_advance [].

(** The words that [remove_stopwords] keeps. *)
Definition kept_word (stop_words : list str) (neg_keep : bool) (word : str)
  : bool :=
  negb (mem word stop_words)
  || (neg_keep && mem word [txt "not"; txt "no"; txt "nor"]).





(** Subject and result of [remove_spaces] start alike: both are empty, or
    both start with whitespace, or neither does. *)
Definition same_start (text out : str) : Prop :=
  match text, out with
  | [], [] => True
  | c :: _, d :: _ => is_space c = is_space d
  | _, _ => False
  end.

(** The first letters of the cue words. *)
Definition cue_start (c : ascii) : bool :=
  Ascii.eqb c "n"%char || Ascii.eqb c "c"%char.

(** No character of [pre] can start a cue as a whole word: each one has a
    word character in front of it or is not the first letter of a cue. *)
Fixpoint quiet (pv : option ascii) (pre : str) : bool :=
  match pre with
  | [] => true
  | c :: pre' => (word_char pv || negb (cue_start c)) && quiet (Some c) pre'
  end.


(** * Properties *)

(** ** Character tables *)

Ltac by_table c :=
  destruct c as [[] [] [] [] [] [] [] []]; vm_compute;
  try reflexivity; try discriminate; try tauto; try (intuition congruence).

Lemma space_is_space : is_space space = true.
Proof. reflexivity. Qed.

Lemma alpha_not_space c : is_alpha c = true -> is_space c = false.
Proof. by_table c. Qed.


Lemma lower_is_alpha c : is_lower c = true -> is_alpha c = true.
Proof. by_table c. Qed.

Lemma lower_not_upper c : is_lower c = true -> is_upper c = false.
Proof. by_table c. Qed.

Lemma lower_is_word c : is_lower c = true -> is_word c = true.
Proof. by_table c. Qed.

Lemma lower_not_space c : is_lower c = true -> is_space c = false.
Proof. by_table c. Qed.

Lemma space_not_word c : is_space c = true -> is_word c = false.
Proof. by_table c. Qed.



Lemma lower_char_alpha c : is_alpha (lower_char c) = is_alpha c.
Proof. by_table c. Qed.

(** ** [split], [join] and [strip] *)

Lemma split_eq c text :
  split (c :: text) =
  if is_space c then split text
  else match text with
       | [] => [[c]]
       | c' :: _ =>
           if is_space c' then [c] :: split text
           else match split text with
                | w :: ws => (c :: w) :: ws
                | [] => [[c]]
                end
       end.
Proof. reflexivity. Qed.

Lemma split_cons_space c text :
  is_space c = true -> split (c :: text) = split text.
Proof. intros H. rewrite split_eq. now rewrite H. Qed.

Lemma split_tokens text : Forall is_token (split text).
Proof.
  induction text as [|c text IH]; [constructor|].
  rewrite split_eq.
  destruct (is_space c) eqn:Hc; [exact IH|].
  destruct text as [|c' text'].
  - repeat constructor; [discriminate|exact Hc].
  - destruct (is_space c') eqn:Hc'.
    + constructor; [|exact IH]. split; [discriminate|]. now repeat constructor.
    + destruct (split (c' :: text')) as [|w ws].
      * repeat constructor; [discriminate|exact Hc].
      * inversion IH as [|? ? [Hne Hw] Hws]; subst.
        constructor; [|exact Hws]. split; [discriminate|]. now constructor.
Qed.

Lemma split_chars (P : ascii -> Prop) text :
  Forall P text -> Forall (Forall P) (split text).
Proof.
  induction text as [|c text IH]; intros H; [constructor|].
  rewrite split_eq.
  inversion H as [|? ? Hc Ht]; subst. specialize (IH Ht).
  destruct (is_space c); [exact IH|].
  destruct text as [|c' text'].
  - now repeat constructor.
  - destruct (is_space c').
    + constructor; [now repeat constructor|exact IH].
    + destruct (split (c' :: text')) as [|w ws].
      * now repeat constructor.
      * inversion IH; subst. constructor; [now constructor|assumption].
Qed.

Lemma split_token_app w text :
  is_token w -> split (w ++ space :: text) = w :: split text.
Proof.
  intros [Hne Hw]. induction w as [|c w IH]; [congruence|].
  inversion Hw as [|? ? Hc Hw']; subst.
  destruct w as [|c' w'].
  - change ([c] ++ space :: text) with (c :: space :: text).
    rewrite split_eq, Hc, space_is_space.
    rewrite split_cons_space by apply space_is_space. reflexivity.
  - inversion Hw' as [|? ? Hc' _]; subst.
    change ((c :: c' :: w') ++ space :: text)
      with (c :: (c' :: w') ++ space :: text).
    rewrite split_eq, Hc, IH by (discriminate || assumption).
    cbn [app]. now rewrite Hc'.
Qed.

Lemma split_token w : is_token w -> split w = [w].
Proof.
  intros [Hne Hw]. induction w as [|c w IH]; [congruence|].
  inversion Hw as [|? ? Hc Hw']; subst.
  rewrite split_eq, Hc.
  destruct w as [|c' w']; [reflexivity|].
  inversion Hw' as [|? ? Hc' _]; subst.
  rewrite Hc', IH by (discriminate || assumption). reflexivity.
Qed.

Lemma split_join ws :
  Forall is_token ws -> split (join [space] ws) = ws.
Proof.
  induction ws as [|w ws IH]; intros H; [reflexivity|].
  inversion H as [|? ? Hw Hws]; subst.
  destruct ws as [|w' ws'].
  - simpl. now apply split_token.
  - change (join [space] (w :: w' :: ws'))
      with (w ++ space :: join [space] (w' :: ws')).
    rewrite split_token_app by assumption. now rewrite IH.
Qed.

Lemma lstrip_id c text : is_space c = false -> lstrip (c :: text) = c :: text.
Proof. intros H; simpl; now rewrite H. Qed.

Lemma join_head ws :
  Forall is_token ws -> ws <> [] ->
  exists c text, join [space] ws = c :: text /\ is_space c = false.
Proof.
  intros H Hne. destruct ws as [|w ws]; [congruence|].
  inversion H as [|? ? [Hw Hc] _]; subst.
  destruct w as [|c w]; [congruence|]. inversion Hc; subst.
  destruct ws; simpl; eauto.
Qed.

Lemma join_last ws :
  Forall is_token ws -> ws <> [] ->
  exists text c, join [space] ws = text ++ [c] /\ is_space c = false.
Proof.
  induction ws as [|w ws IH]; intros H Hne; [congruence|].
  inversion H as [|? ? [Hw Hc] Hws]; subst.
  destruct ws as [|w' ws'].
  - simpl. destruct (exists_last Hw) as (text & c & ->).
    exists text, c. split; [reflexivity|].
    apply Forall_app in Hc as [_ Hc]. now inversion Hc.
  - destruct IH as (text & c & Heq & Hsp); [assumption|discriminate|].
    exists (w ++ space :: text), c. split; [|exact Hsp].
    change (join [space] (w :: w' :: ws'))
      with (w ++ space :: join [space] (w' :: ws')).
    rewrite Heq, <- app_assoc. reflexivity.
Qed.

Lemma strip_join ws :
  Forall is_token ws -> strip (join [space] ws) = join [space] ws.
Proof.
  intros H. destruct (list_eq_dec (list_eq_dec ascii_dec) ws []) as [->|Hne];
    [reflexivity|].
  destruct (join_head ws H Hne) as (c & text & Heq & Hc).
  destruct (join_last ws H Hne) as (text' & c' & Heq' & Hc').
  unfold strip, rstrip. rewrite Heq, (lstrip_id c text Hc), <- Heq, Heq'.
  rewrite rev_app_distr. simpl. rewrite Hc'.
  change (rev (c' :: rev text')) with (rev (rev text') ++ [c']).
  now rewrite rev_involutive.
Qed.

Lemma join_cons w w' ws :
  join [space] (w :: w' :: ws) = w ++ space :: join [space] (w' :: ws).
Proof. reflexivity. Qed.

Lemma no_double_space_cons c text :
  is_space c = false -> no_double_space (c :: text) = no_double_space text.
Proof. intros H. destruct text; simpl; [reflexivity|now rewrite H]. Qed.

Lemma no_double_space_join ws :
  Forall is_token ws -> no_double_space (join [space] ws) = true.
Proof.
  assert (Hw : forall w text, Forall (fun c => is_space c = false) w ->
            no_double_space (w ++ text) = no_double_space text).
  { induction w as [|c w IH]; intros text H; [reflexivity|].
    inversion H; subst. cbn [app].
    rewrite no_double_space_cons by assumption. now apply IH. }
  induction ws as [|w ws IH]; intros H; [reflexivity|].
  inversion H as [|? ? [Hne Hc] Hws]; subst.
  destruct ws as [|w' ws'].
  - simpl. rewrite <- (app_nil_r w). now rewrite Hw.
  - rewrite join_cons, Hw by assumption.
    destruct (join_head (w' :: ws') Hws) as (d & r & Heq & Hd); [discriminate|].
    specialize (IH Hws). rewrite Heq in *.
    change (no_double_space (space :: d :: r))
      with (negb (is_space space && is_space d) && no_double_space (d :: r)).
    rewrite Hd, andb_false_r. exact IH.
Qed.

(** ** The matcher on the simple patterns *)

Lemma firstn_one (c : ascii) text :
  firstn (length (c :: text) - length text) (c :: text) = [c].
Proof.
  replace (length (c :: text) - length text) with 1 by (cbn [length]; lia).
  reflexivity.
Qed.

Lemma match_here_cls p pv text must_advance :
  match_here (Cls p) pv text must_advance =
  match text with
  | c :: text' => if p c then Some (MState (Some c) text' []) else None
  | [] => None
  end.
Proof.
  unfold match_here. cbn [rmatch]. unfold step_char. cbn [rest].
  destruct text as [|c text']; [reflexivity|].
  destruct (p c); [|reflexivity].
  cbn [find eat rest caps].
  replace (length text' =? length (c :: text')) with false.
  - now rewrite andb_false_r.
  - symmetry. apply Nat.eqb_neq. simpl. lia.
Qed.

(** Replacing a one-character class by one character is a [map]. *)
Lemma sub_loop_cls p x fuel :
  forall pv text must_advance,
    length text < fuel ->
    sub_loop (Cls p) (expand [TLit x]) fuel pv text must_advance =
    map (fun c => if p c then x else c) text.
Proof.
  induction fuel as [|fuel IH]; intros pv text ma Hlen; [lia|].
  cbn [sub_loop]. rewrite match_here_cls.
  destruct text as [|c text']; [reflexivity|].
  simpl in Hlen.
  destruct (p c) eqn:Hp; cbn [rest prev caps map]; rewrite Hp.
  - rewrite firstn_one. cbn [is_nil expand flat_map app].
    now rewrite IH by lia.
  - now rewrite IH by lia.
Qed.

Lemma remove_non_alpha_map text :
  remove_non_alpha text =
  map (fun c => if negb (is_alpha c) then space else c) text.
Proof. apply sub_loop_cls. lia. Qed.

Lemma match_here_multi_spaces pv text must_advance :
  match text with
  | c :: c' :: _ => is_space c && is_space c'
  | _ => false
  end = false ->
  match_here multi_spaces_re pv text must_advance = None.
Proof.
  intros H. unfold match_here, multi_spaces_re.
  destruct text as [|c text']; [reflexivity|].
  cbn [rmatch]. unfold step_char. cbn [rest].
  destruct (is_space c); [|reflexivity].
  cbn [flat_map eat rest iter_plus].
  destruct text' as [|c' text'']; [reflexivity|].
  cbn [andb] in H. now rewrite H.
Qed.

Lemma sub_loop_multi_spaces repl fuel :
  forall pv text must_advance,
    no_double_space text = true ->
    sub_loop multi_spaces_re repl fuel pv text must_advance = text.
Proof.
  induction fuel as [|fuel IH]; intros pv text ma H; [reflexivity|].
  cbn [sub_loop]. rewrite match_here_multi_spaces.
  - destruct text as [|c text']; [reflexivity|]. f_equal. apply IH.
    destruct text'; [reflexivity|]. cbn [no_double_space] in H.
    now apply andb_true_iff in H.
  - destruct text as [|c [|c' text']]; try reflexivity.
    cbn [no_double_space] in H. apply andb_true_iff in H as [H _].
    now apply negb_true_iff in H.
Qed.

Lemma remove_spaces_id text :
  no_double_space text = true -> remove_spaces text = text.
Proof. apply sub_loop_multi_spaces. Qed.

Lemma Forall_filter_keep {A} (P : A -> Prop) f (l : list A) :
  Forall P l -> Forall P (filter f l).
Proof.
  induction 1 as [|x l Hx Hl IH]; simpl; [constructor|].
  destruct (f x); [now constructor|exact IH].
Qed.

Lemma Forall_filter_both {A} (P : A -> Prop) f (l : list A) :
  Forall P l -> Forall (fun x => P x /\ f x = true) (filter f l).
Proof.
  induction 1 as [|x l Hx Hl IH]; simpl; [constructor|].
  destruct (f x) eqn:E; [now constructor|exact IH].
Qed.

(** ** The tail of the pipeline

    From [remove_short_words] on, the text is a list of tokens joined by
    single spaces, and the later stages only drop tokens. *)

Section Pipeline.

Variable contractions_fix : str -> str.
Variable stop_words : list str.
Variable pos_tag : list str -> list (str * str).
Variable wordnet_lemmatize : str -> str -> str.

Local Abbreviation clean :=
  (data_cleaning contractions_fix stop_words pos_tag wordnet_lemmatize).

Lemma long_words_tokens text : Forall is_token (long_words text).
Proof. apply Forall_filter_keep, split_tokens. Qed.

Lemma final_words_tokens text hn ra :
  Forall is_token (final_words contractions_fix stop_words text hn ra).
Proof.
  unfold final_words. destruct ra; [apply Forall_filter_keep|];
    apply long_words_tokens.
Qed.

Lemma remove_stopwords_join ws :
  Forall is_token ws ->
  remove_stopwords stop_words (join [space] ws) false =
  join [space] (filter (fun word => negb (mem word stop_words)) ws).
Proof. intros H. unfold remove_stopwords. now rewrite split_join. Qed.

Lemma data_cleaning_words text hn ra :
  clean text hn ra false = Some (join [space] (final_words contractions_fix stop_words text hn ra)).
Proof.
  unfold data_cleaning. cbv zeta.
  fold (tagged_text contractions_fix stop_words text hn). unfold remove_short_words.
  fold (long_words (tagged_text contractions_fix stop_words text hn)).
  pose proof (long_words_tokens (tagged_text contractions_fix stop_words text hn)) as Htok.
  rewrite remove_spaces_id by now apply no_double_space_join.
  unfold final_words. cbv zeta. destruct ra.
  - rewrite remove_stopwords_join by assumption.
    now rewrite strip_join by now apply Forall_filter_keep.
  - now rewrite strip_join.
Qed.

Lemma long_words_long text :
  Forall (fun w => 2 <= length w) (long_words text).
Proof.
  unfold long_words.
  induction (split (remove_non_alpha text)) as [|w ws IH]; simpl;
    [constructor|].
  destruct (1 <? length w) eqn:E; [|exact IH].
  constructor; [|exact IH]. apply Nat.ltb_lt in E. lia.
Qed.

Lemma final_words_long text hn ra :
  Forall (fun w => 2 <= length w) (final_words contractions_fix stop_words text hn ra).
Proof.
  unfold final_words. destruct ra; [apply Forall_filter_keep|];
    apply long_words_long.
Qed.

(** C10: with the lemmatiser off, [data_cleaning] returns a text all of
    whose whitespace-separated tokens have at least two characters:
    [remove_short_words] drops the shorter ones and no later stage brings
    one back. *)
Theorem short_words_stay_out text handle_neg remove_all_stopword :
  exists out,
    data_cleaning contractions_fix stop_words pos_tag wordnet_lemmatize
      text handle_neg remove_all_stopword false = Some out
    /\ Forall (fun word => 2 <= length word) (split out).
Proof.
  eexists. split; [apply data_cleaning_words|].
  rewrite split_join by apply final_words_tokens.
  apply final_words_long.
Qed.

(** With [remove_all_stopword] on, no stop word is left in the result. *)
Lemma cleaned_has_no_stop_word text hn out :
  data_cleaning contractions_fix stop_words pos_tag wordnet_lemmatize
    text hn true false = Some out ->
  Forall (fun word => mem word stop_words = false) (split out).
Proof.
  rewrite data_cleaning_words. intros E. injection E as <-.
  rewrite split_join by apply (final_words_tokens text hn true).
  unfold final_words. cbv zeta.
  eapply Forall_impl; [|apply Forall_filter_both, long_words_tokens].
  intros w [_ H]. now apply negb_true_iff in H.
Qed.

End Pipeline.

(** C8: stripping the non-alphabetic characters a second time changes
    nothing. *)
Theorem remove_non_alpha_idempotent text :
  remove_non_alpha (remove_non_alpha text) = remove_non_alpha text.
Proof.
  rewrite !remove_non_alpha_map, map_map. apply map_ext. intros c.
  destruct (is_alpha c) eqn:E; cbn [negb]; [now rewrite E|reflexivity].
Qed.

(** ** The examples of the notebook, run *)

(** C1, as the notebook runs it: with [handle_neg] and
    [remove_all_stopword] both off (the defaults of the example call), and a
    contraction expander that turns the lower-cased tweet into
    [jordan_expanded], [data_cleaning] returns [jordan_cleaned]. *)
Theorem data_cleaning_jordan_default
  (contractions_fix : str -> str) (stop_words : list str)
  (pos_tag : list str -> list (str * str))
  (wordnet_lemmatize : str -> str -> str) :
  contractions_fix (lower jordan_tweet) = jordan_expanded ->
  data_cleaning contractions_fix stop_words pos_tag wordnet_lemmatize
    jordan_tweet false false false = Some jordan_cleaned.
Proof.
  intros H. unfold data_cleaning, expand_contractions. cbv zeta.
  rewrite H. vm_compute. reflexivity.
Qed.

Lemma data_cleaning_jordan_default_witness :
  data_cleaning sample_fix nltk_english sample_pos_tag sample_lemmatize
    jordan_tweet false false false = Some jordan_cleaned.
Proof.
  apply data_cleaning_jordan_default. vm_compute. reflexivity.
Defined.

(** C1, as stated: with [handle_neg] and [remove_all_stopword] both on, the
    stop words are gone from the result and [like] carries the marker. *)
Lemma data_cleaning_jordan_neg_differs :
  data_cleaning sample_fix nltk_english sample_pos_tag sample_lemmatize
    jordan_tweet true true false
  = Some (txt "got email think troll told mail really NEGlike dog like cat")
  /\ data_cleaning sample_fix nltk_english sample_pos_tag sample_lemmatize
       jordan_tweet true true false
     <> Some jordan_cleaned.
Proof.
  assert (E : data_cleaning sample_fix nltk_english sample_pos_tag
                sample_lemmatize jordan_tweet true true false
              = Some (txt "got email think troll told mail really NEGlike dog like cat"))
    by (vm_compute; reflexivity).
  split; [exact E|]. rewrite E. vm_compute. discriminate.
Qed.

(** Whatever the contraction expander does, the result with both switches
    on is not [jordan_cleaned]: that text contains stop words. *)
Lemma data_cleaning_jordan_neg_never contractions_fix pos_tag wordnet_lemmatize :
  data_cleaning contractions_fix nltk_english pos_tag wordnet_lemmatize
    jordan_tweet true true false
  <> Some jordan_cleaned.
Proof.
  intros E. apply cleaned_has_no_stop_word in E.
  assert (H : forallb (fun word => negb (mem word nltk_english))
                      (split jordan_cleaned) = true).
  { apply forallb_forall. intros w Hw. rewrite Forall_forall in E.
    now rewrite (E w Hw). }
  vm_compute in H. discriminate.
Qed.

(** C3: the notebook's example of [negation_handle]. *)
Theorem negation_handle_food :
  negation_handle (txt "I do not like the food. I like the movie.")
  = txt "I do not NEGlike the food. I like the movie.".
Proof. vm_compute. reflexivity. Qed.

(** C7, as stated: on the dotted string nothing is left, so no word
    [feelings] either. *)
Lemma remove_noise_texts_dotted_empty :
  remove_noise_texts someone_dotted = []
  /\ contains (txt "feelings") (remove_noise_texts someone_dotted) = false.
Proof. split; vm_compute; reflexivity. Qed.

(** C7, amended: on the dotted string the runs of three or more equal
    characters are collapsed first, which leaves one token without
    whitespace; that token contains [@] and is removed whole as e-mail-like,
    so the result is empty.  On the sentence of the notebook, where the
    pieces are words of their own, the mention and the hashtag are removed
    and the long run of [s] is collapsed, leaving [feelings]. *)
Theorem remove_noise_texts_someone :
  re_sub repeating_suff_re (expand [TGrp 1]) someone_dotted
    = txt ".@someone_on_Twitter.feelings.#Tag"
  /\ remove_noise_texts someone_dotted = []
  /\ remove_noise_texts someone_sentence
     = txt "In  a setence can have an email  it also mentions  and has words with repeating last letter to express my feelings. Lastly ".
Proof. repeat split; vm_compute; reflexivity. Qed.

(** ** The order of the stages *)

Section Stages.

Variable contractions_fix : str -> str.
Variable stop_words : list str.
Variable pos_tag : list str -> list (str * str).
Variable wordnet_lemmatize : str -> str -> str.

(** C5: [data_cleaning] is the composition of the stages in the order of
    the specification: lower-casing, contraction expansion, noise removal,
    (stop words but the negation markers, then negation tagging), non-alphabetic
    replacement, short-word removal, whitespace collapsing, (lemmatisation),
    (all stop words), trimming. *)
Theorem data_cleaning_is_pipeline text handle_neg remove_all_stopword is_lemmatized :
  data_cleaning contractions_fix stop_words pos_tag wordnet_lemmatize
    text handle_neg remove_all_stopword is_lemmatized
  = run_stages (pipeline_spec contractions_fix stop_words pos_tag wordnet_lemmatize
                handle_neg remove_all_stopword is_lemmatized) text.
Proof.
  unfold data_cleaning, run_stages, pipeline_spec, total. cbv zeta.
  destruct handle_neg, is_lemmatized; cbn [when fold_left];
    try (destruct remove_all_stopword; reflexivity);
    match goal with
    | |- context [lemmatize ?p ?w ?t] => destruct (lemmatize p w t)
    end;
    destruct remove_all_stopword; reflexivity.
Qed.

End Stages.

(** ** Dropping the rows whose cleaned text is empty *)

Lemma kept_positions_bounds col df :
  forall base j, In j (kept_positions col base df) ->
                 base <= j < base + length df.
Proof.
  induction df as [|r df IH]; intros base j H; [destruct H|].
  simpl in H. destruct (is_nil (col r)).
  - apply IH in H. simpl. lia.
  - destruct H as [<-|H]; [simpl; lia|]. apply IH in H. simpl. lia.
Qed.

Lemma kept_positions_sorted col df :
  forall base, StronglySorted lt (kept_positions col base df).
Proof.
  induction df as [|r df IH]; intros base; simpl; [constructor|].
  destruct (is_nil (col r)); [apply IH|].
  constructor; [apply IH|]. apply Forall_forall. intros j Hj.
  apply kept_positions_bounds in Hj. lia.
Qed.

Lemma kept_positions_rows col df :
  forall base,
    map Some (drop_empty col df)
    = map (fun j => nth_error df (j - base)) (kept_positions col base df).
Proof.
  induction df as [|r df IH]; intros base; [reflexivity|].
  assert (E : map (fun j => nth_error (r :: df) (j - base))
                  (kept_positions col (S base) df)
              = map (fun j => nth_error df (j - S base))
                    (kept_positions col (S base) df)).
  { apply map_ext_in. intros j Hj. apply kept_positions_bounds in Hj.
    replace (j - base) with (S (j - S base)) by lia. reflexivity. }
  unfold drop_empty in *. simpl. destruct (is_nil (col r)); simpl.
  - now rewrite E, <- IH.
  - rewrite Nat.sub_diag. simpl. now rewrite E, <- IH.
Qed.

Lemma kept_positions_complete col df :
  forall base j r,
    nth_error df j = Some r -> col r <> [] ->
    In (base + j) (kept_positions col base df).
Proof.
  induction df as [|r0 df IH]; intros base j r Hj Hr; [now destruct j|].
  destruct j as [|j]; simpl in Hj.
  - injection Hj as ->. simpl. destruct (col r); [congruence|].
    left. lia.
  - simpl. replace (base + S j) with (S base + j) by lia.
    destruct (is_nil (col r0)); [|right]; eapply IH; eauto.
Qed.

(** C9: the rows whose cleaned text is empty are removed, text and label
    together, and nothing else is: the feature and target vectors have one
    length, and entry [i] of both comes from one row of the data frame, the
    [i]-th (in the order of the frame) among those with a non-empty text. *)
Theorem drop_empty_keeps_pairs (col : row -> str) (df : list row) :
  length (feature_vector col df) = length (target_vector col df)
  /\ exists origin : list nat,
       StronglySorted lt origin
       /\ length origin = length (feature_vector col df)
       /\ (forall i j, nth_error origin i = Some j ->
             exists r, nth_error df j = Some r
                       /\ col r <> []
                       /\ nth_error (feature_vector col df) i = Some (col r)
                       /\ nth_error (target_vector col df) i = Some (label r))
       /\ (forall j r, nth_error df j = Some r ->
             (In j origin <-> col r <> [])).
Proof.
  unfold feature_vector, target_vector. split; [now rewrite !length_map|].
  exists (kept_positions col 0 df).
  pose proof (kept_positions_rows col df 0) as Hrows.
  split; [apply kept_positions_sorted|].
  split.
  { rewrite length_map, <- (length_map Some (drop_empty col df)), Hrows.
    now rewrite length_map. }
  split.
  - intros i j Hi.
    assert (Hn : nth_error (map Some (drop_empty col df)) i
                 = Some (nth_error df (j - 0))).
    { rewrite Hrows.
      exact (map_nth_error (fun j => nth_error df (j - 0)) _ _ Hi). }
    rewrite Nat.sub_0_r in Hn. rewrite nth_error_map in Hn.
    destruct (nth_error (drop_empty col df) i) as [r|] eqn:Er; [|discriminate].
    simpl in Hn. injection Hn as Hn. exists r. split; [now symmetry|].
    pose proof (nth_error_In _ _ Er) as Hin. unfold drop_empty in Hin.
    apply filter_In in Hin as [_ Hin].
    split; [intros E; rewrite E in Hin; discriminate|].
    now rewrite !nth_error_map, Er.
  - intros j r Hj. split.
    + intros Hin. apply In_nth_error in Hin as [i Hi].
      assert (Hn : nth_error (map Some (drop_empty col df)) i
                   = Some (nth_error df (j - 0))).
      { rewrite Hrows.
      exact (map_nth_error (fun j => nth_error df (j - 0)) _ _ Hi). }
      rewrite Nat.sub_0_r, Hj, nth_error_map in Hn.
      destruct (nth_error (drop_empty col df) i) as [r'|] eqn:Er; [|discriminate].
      simpl in Hn. injection Hn as ->. apply nth_error_In in Er.
      apply filter_In in Er as [_ Er]. intros E. rewrite E in Er. discriminate.
    + intros Hr. apply (kept_positions_complete col df 0 j r Hj Hr).
Qed.

(** ** Substitution creates no new characters

    Whatever the pattern, the characters of [re.sub]'s result come from the
    subject or from the literals of the replacement. *)

Section Preservation.

Variable P : ascii -> Prop.

Lemma Forall_firstn_keep n (text : str) :
  Forall P text -> Forall P (firstn n text).
Proof.
  revert n. induction text as [|c text IH]; intros [|n] H; simpl;
    try constructor; inversion H; subst; auto.
Qed.

Lemma step_char_ok p st : (st_ok P) st -> Forall (st_ok P) (step_char p st).
Proof.
  intros [Hr Hc]. unfold step_char.
  destruct (rest st) as [|c text] eqn:E; [constructor|].
  destruct (p c); [|constructor].
  inversion Hr; subst. constructor; [split; assumption|constructor].
Qed.

Lemma step_lit_ok w : forall st, (st_ok P) st -> Forall (st_ok P) (step_lit w st).
Proof.
  induction w as [|a w IH]; intros st Hst; simpl;
    [constructor; [assumption|constructor]|].
  destruct (rest st) as [|c text] eqn:E; [constructor|].
  destruct (Ascii.eqb a c); [|constructor].
  apply IH. destruct Hst as [Hr Hc]. rewrite E in Hr. inversion Hr; subst.
  split; assumption.
Qed.

Lemma get_cap_ok n cs w : (caps_ok P) cs -> get_cap n cs = Some w -> Forall P w.
Proof.
  induction cs as [|[k v] cs IH]; intros H E; simpl in E; [discriminate|].
  inversion H; subst. destruct (k =? n); [|now apply IH].
  now injection E as <-.
Qed.

Lemma set_cap_ok n st st' : (st_ok P) st -> (st_ok P) st' -> (st_ok P) (set_cap n st st').
Proof.
  intros [Hr _] [Hr' Hc']. split; [exact Hr'|].
  constructor; [|exact Hc']. now apply Forall_firstn_keep.
Qed.

Lemma Forall_flat_map_ok {A B} (Q : A -> Prop) (R : B -> Prop)
  (f : A -> list B) l :
  (forall a, Q a -> Forall R (f a)) -> Forall Q l -> Forall R (flat_map f l).
Proof.
  intros Hf. induction 1 as [|a l Ha Hl IH]; simpl; [constructor|].
  apply Forall_app. split; [now apply Hf|exact IH].
Qed.

Lemma iter_plus_ok body :
  (forall st, (st_ok P) st -> Forall (st_ok P) (body st)) ->
  forall fuel st, (st_ok P) st -> Forall (st_ok P) (iter_plus body fuel st).
Proof.
  intros Hbody. induction fuel as [|fuel IH]; intros st Hst; simpl;
    [constructor|].
  apply Forall_flat_map_ok with (Q := (st_ok P)); [|now apply Hbody].
  intros st' Hst'. apply Forall_app.
  split; [|constructor; [assumption|constructor]].
  destruct (length (rest st') <? length (rest st)); [now apply IH|constructor].
Qed.

Lemma rmatch_ok r : forall st, (st_ok P) st -> Forall (st_ok P) (rmatch r st).
Proof.
  induction r as [|a| |p|r1 IH1 r2 IH2|r1 IH1 r2 IH2|r1 IH1|r1 IH1|n r1 IH1|n|];
    intros st Hst; cbn [rmatch].
  - constructor; [assumption|constructor].
  - now apply step_char_ok.
  - now apply step_char_ok.
  - now apply step_char_ok.
  - apply Forall_flat_map_ok with (Q := (st_ok P)); auto.
  - apply Forall_app. split; auto.
  - apply iter_plus_ok; auto.
  - apply Forall_app. split; [auto|constructor; [assumption|constructor]].
  - specialize (IH1 st Hst). induction IH1; simpl; constructor; auto.
    now apply set_cap_ok.
  - destruct (get_cap n (caps st)) eqn:E; [|constructor].
    now apply step_lit_ok.
  - destruct (xorb (word_before st) (word_after st));
      [constructor; [assumption|constructor]|constructor].
Qed.

Lemma match_here_ok r pv text must_advance st' :
  Forall P text ->
  match_here r pv text must_advance = Some st' -> (st_ok P) st'.
Proof.
  intros Ht E. unfold match_here in E. apply find_some in E as [Hin _].
  assert (H : Forall (st_ok P) (rmatch r (MState pv text [])))
    by (apply rmatch_ok; split; [exact Ht|constructor]).
  rewrite Forall_forall in H. now apply H.
Qed.

Lemma expand_ok tpl :
  Forall (fun it => match it with TLit c => P c | TGrp _ => True end) tpl ->
  (repl_ok P) (expand tpl).
Proof.
  intros Htpl m H0 Hc. unfold expand.
  apply Forall_flat_map_ok with (Q := fun it =>
    match it with TLit c => P c | TGrp _ => True end); [|exact Htpl].
  intros [c|n] Hit; [now repeat constructor|].
  unfold group. destruct n; [exact H0|].
  destruct (get_cap (S n) (groups m)) eqn:E; [|constructor].
  eapply get_cap_ok; eauto.
Qed.

Lemma sub_loop_ok r repl :
  (repl_ok P) repl ->
  forall fuel pv text must_advance,
    Forall P text -> Forall P (sub_loop r repl fuel pv text must_advance).
Proof.
  intros Hrepl. induction fuel as [|fuel IH]; intros pv text ma Ht;
    cbn [sub_loop]; [exact Ht|].
  destruct (match_here r pv text ma) as [st'|] eqn:E.
  - destruct (match_here_ok r pv text ma st' Ht E) as [Hr Hc].
    apply Forall_app. split; [|now apply IH].
    apply Hrepl; [now apply Forall_firstn_keep|exact Hc].
  - destruct text as [|c text']; [constructor|].
    inversion Ht; subst. constructor; [assumption|now apply IH].
Qed.

Lemma re_sub_ok r repl text :
  (repl_ok P) repl -> Forall P text -> Forall P (re_sub r repl text).
Proof. intros. now apply sub_loop_ok. Qed.

Lemma remove_noise_texts_ok text :
  Forall P text -> Forall P (remove_noise_texts text).
Proof.
  intros H. unfold remove_noise_texts.
  repeat (apply re_sub_ok; [apply expand_ok; now repeat constructor|]).
  exact H.
Qed.

Lemma join_ok ws :
  P space -> Forall (Forall P) ws -> Forall P (join [space] ws).
Proof.
  intros Hsp. induction 1 as [|w ws Hw Hws IH]; [constructor|].
  destruct ws as [|w' ws']; [exact Hw|].
  rewrite join_cons. apply Forall_app. split; [exact Hw|].
  constructor; [exact Hsp|exact IH].
Qed.

Lemma remove_stopwords_ok stop_words text neg_keep :
  P space -> Forall P text ->
  Forall P (remove_stopwords stop_words text neg_keep).
Proof.
  intros Hsp H. unfold remove_stopwords.
  apply join_ok; [exact Hsp|]. apply Forall_filter_keep. now apply split_chars.
Qed.

End Preservation.

(** ** The matcher on the negation pattern *)

Lemma take_drop_while p text : text = take_while p text ++ drop_while p text.
Proof.
  induction text as [|c text IH]; simpl; [reflexivity|].
  destruct (p c); simpl; congruence.
Qed.

Lemma take_while_all p text : Forall (fun c => p c = true) (take_while p text).
Proof.
  induction text as [|c text IH]; simpl; [constructor|].
  destruct (p c) eqn:E; now constructor.
Qed.

Lemma drop_while_stops p text : stops p (drop_while p text).
Proof.
  induction text as [|c text IH]; simpl; [exact I|].
  destruct (p c) eqn:E; [exact IH|exact E].
Qed.

Lemma drop_while_app p w text :
  Forall (fun c => p c = true) w -> stops p text ->
  drop_while p (w ++ text) = text.
Proof.
  induction 1 as [|c w Hc Hw IH]; intros Hs; simpl.
  - destruct text as [|c text']; [reflexivity|]. simpl in *. now rewrite Hs.
  - rewrite Hc. now apply IH.
Qed.

Lemma iter_plus_cls p :
  forall fuel st,
    length (rest st) < fuel ->
    iter_plus (step_char p) fuel st = greedy p (caps st) (rest st).
Proof.
  induction fuel as [|fuel IH]; intros [pv text cs] Hlen; [lia|].
  cbn [rest caps] in *. cbn [iter_plus]. unfold step_char. cbn [rest].
  destruct text as [|c text']; [reflexivity|].
  cbn [greedy]. destruct (p c); [|reflexivity].
  cbn [flat_map eat rest caps]. rewrite app_nil_r.
  replace (length text' <? length (c :: text')) with true
    by (symmetry; apply Nat.ltb_lt; apply Nat.lt_succ_diag_r).
  rewrite IH; [reflexivity|]. unfold eat. cbn [rest length] in *. lia.
Qed.

Lemma rmatch_plus_cls p st :
  rmatch (Plus (Cls p)) st = greedy p (caps st) (rest st).
Proof. cbn [rmatch]. apply iter_plus_cls. lia. Qed.

Lemma greedy_stops p cs text : stops p text -> greedy p cs text = [].
Proof. destruct text as [|c text']; simpl; [reflexivity|]. now intros ->. Qed.

(** The longest run comes first. *)
Lemma greedy_head p cs w text :
  w <> [] -> Forall (fun c => p c = true) w -> stops p text ->
  exists tl,
    greedy p cs (w ++ text) = MState (Some (last w space)) text cs :: tl.
Proof.
  intros Hne Hw Hs. induction w as [|c w IH]; [congruence|].
  inversion Hw as [|? ? Hc Hw']; subst.
  cbn [app greedy]. rewrite Hc.
  destruct w as [|c' w'].
  - cbn [app]. rewrite greedy_stops by assumption. now exists [].
  - destruct IH as [tl IH]; [discriminate|assumption|].
    rewrite IH. eexists. reflexivity.
Qed.

(** Two runs in a row, the second over characters that the first does not
    take: the first run goes as far as it can. *)
Lemma greedy_then p q cs text :
  (forall c, p c = true -> q c = false) ->
  flat_map (fun st => greedy q (caps st) (rest st)) (greedy p cs text)
  = match text with
    | c :: _ => if p c then greedy q cs (drop_while p text) else []
    | [] => []
    end.
Proof.
  intros Hpq. induction text as [|c text IH]; [reflexivity|].
  cbn [greedy]. destruct (p c) eqn:Hc; [|reflexivity].
  rewrite flat_map_app, IH. cbn [flat_map caps rest drop_while].
  rewrite Hc, app_nil_r.
  destruct text as [|c' text']; [reflexivity|].
  cbn [drop_while]. destruct (p c') eqn:Hc'.
  - cbn [greedy]. rewrite (Hpq c' Hc'). now rewrite app_nil_r.
  - reflexivity.
Qed.

Lemma strip_prefix_app w text : strip_prefix w (w ++ text) = Some text.
Proof.
  induction w as [|a w IH]; simpl; [reflexivity|]. now rewrite Ascii.eqb_refl.
Qed.

Lemma strip_prefix_some w : forall text text',
  strip_prefix w text = Some text' -> text = w ++ text'.
Proof.
  induction w as [|a w IH]; intros text text' H; simpl in H.
  - now injection H as ->.
  - destruct text as [|c text0]; [discriminate|].
    destruct (Ascii.eqb a c) eqn:E; [|discriminate].
    apply Ascii.eqb_eq in E as ->. simpl. f_equal. now apply IH.
Qed.

Lemma last_shift (c d : ascii) w : last (c :: w) d = last w c.
Proof.
  revert c d. induction w as [|c' w IH]; intros c d; [reflexivity|].
  change (last (c :: c' :: w) d) with (last (c' :: w) d).
  now rewrite !IH.
Qed.

Lemma step_lit_prefix w : forall st,
  step_lit w st =
  match strip_prefix w (rest st) with
  | Some text' => [MState (last_of (prev st) w) text' (caps st)]
  | None => []
  end.
Proof.
  induction w as [|a w IH]; intros [pv text cs]; cbn [step_lit strip_prefix rest].
  - reflexivity.
  - destruct text as [|c text']; [reflexivity|].
    destruct (Ascii.eqb a c) eqn:E; [|reflexivity].
    apply Ascii.eqb_eq in E as ->.
    rewrite IH. unfold eat. cbn [rest prev caps].
    destruct (strip_prefix w text'); [|reflexivity].
    destruct w as [|c' w']; [reflexivity|].
    cbn [last_of]. now rewrite last_shift.
Qed.

Lemma rmatch_lit w st : rmatch (Lit w) st = step_lit w st.
Proof.
  revert st. induction w as [|a w IH]; intros st; [reflexivity|].
  destruct w as [|a' w'].
  - cbn [Lit rmatch step_lit]. unfold step_char.
    destruct (rest st); [reflexivity|]. now destruct (Ascii.eqb a a0).
  - change (Lit (a :: a' :: w')) with (Cat (Chr a) (Lit (a' :: w'))).
    cbn [rmatch]. unfold step_char. cbn [step_lit].
    destruct (rest st) as [|c text']; [reflexivity|].
    destruct (Ascii.eqb a c); [|reflexivity].
    cbn [flat_map]. rewrite app_nil_r. apply IH.
Qed.

Lemma rmatch_after_cue a text :
  is_word a = true ->
  rmatch (Cat Bnd (Cat (Plus (Cls is_space)) (Plus (Cls is_lower))))
         (MState (Some a) text [])
  = after_cue text.
Proof.
  intros Ha. cbn [rmatch]. unfold word_before, word_after. cbn [prev rest].
  rewrite Ha.
  assert (E : flat_map
                (fun st => iter_plus (step_char is_lower) (S (length (rest st))) st)
                (iter_plus (step_char is_space)
                   (S (length (rest (MState (Some a) text [])))) (MState (Some a) text []))
              = after_cue text).
  { rewrite iter_plus_cls by lia.
    rewrite (flat_map_ext _ (fun st => greedy is_lower (caps st) (rest st)))
      by (intros st; apply iter_plus_cls; lia).
    cbn [caps rest]. rewrite greedy_then; [reflexivity|].
    intros c Hc. destruct (is_lower c) eqn:El; [|reflexivity].
    apply lower_not_space in El. congruence. }
  destruct text as [|c text']; [reflexivity|].
  destruct (is_word c) eqn:Hc; cbn [xorb flat_map].
  - unfold after_cue. destruct (is_space c) eqn:Hs; [|reflexivity].
    apply space_not_word in Hs. congruence.
  - rewrite app_nil_r. exact E.
Qed.

Lemma rmatch_cat r1 r2 st :
  rmatch (Cat r1 r2) st = flat_map (rmatch r2) (rmatch r1 st).
Proof. reflexivity. Qed.

Lemma rmatch_alt r1 r2 st : rmatch (Alt r1 r2) st = rmatch r1 st ++ rmatch r2 st.
Proof. reflexivity. Qed.

Lemma rmatch_bnd st :
  rmatch Bnd st = if xorb (word_before st) (word_after st) then [st] else [].
Proof. reflexivity. Qed.

Lemma rmatch_grp n r st : rmatch (Grp n r) st = map (set_cap n st) (rmatch r st).
Proof. reflexivity. Qed.

Lemma rmatch_negation pv text :
  rmatch negation_re (MState pv text []) =
  if xorb (word_char pv) (word_after (MState pv text []))
  then cue_matches text else [].
Proof.
  unfold negation_re. rewrite rmatch_cat, rmatch_bnd.
  change (word_before (MState pv text [])) with (word_char pv).
  destruct (xorb (word_char pv) (word_after (MState pv text []))); [|reflexivity].
  cbn [flat_map]. rewrite app_nil_r, rmatch_cat.
  unfold cue_re. rewrite !rmatch_alt, !rmatch_lit, !step_lit_prefix.
  rewrite !flat_map_app. cbn [rest prev caps].
  unfold cue_matches, cues. cbn [flat_map]. rewrite app_nil_r.
  repeat match goal with
  | |- context [strip_prefix ?w text] =>
      destruct (strip_prefix w text); cbn [flat_map app]
  end;
  change (last_of pv (txt "not")) with (Some "t"%char);
  change (last_of pv (txt "no")) with (Some "o"%char);
  change (last_of pv (txt "never")) with (Some "r"%char);
  change (last_of pv (txt "cannot")) with (Some "t"%char);
  rewrite ?app_nil_r, ?rmatch_after_cue by reflexivity; reflexivity.
Qed.

Lemma find_all {A} (f : A -> bool) l :
  (forall x, f x = true) -> find f l = hd_error l.
Proof. intros H. destruct l as [|x l]; simpl; [reflexivity|now rewrite H]. Qed.

Lemma match_here_negation pv text :
  match_here negation_re pv text false =
  hd_error (if xorb (word_char pv) (word_after (MState pv text []))
            then cue_matches text else []).
Proof.
  unfold match_here. rewrite find_all by reflexivity.
  now rewrite rmatch_negation.
Qed.

Lemma hd_flat_map {A B} (f : A -> list B) l x :
  hd_error (flat_map f l) = Some x ->
  exists a, In a l /\ hd_error (f a) = Some x.
Proof.
  induction l as [|a l IH]; simpl; [discriminate|].
  destruct (f a) as [|y ys] eqn:E; simpl; intros H.
  - destruct (IH H) as (a' & Hin & Ha'). exists a'. auto.
  - exists a. rewrite E. auto.
Qed.

Lemma flat_map_cons_in {A B} (f : A -> list B) l a :
  In a l -> f a <> [] -> flat_map f l <> [].
Proof.
  induction l as [|a' l IH]; intros Hin Hne; [destruct Hin|].
  simpl. destruct Hin as [->|Hin].
  - destruct (f a); [congruence|discriminate].
  - intros E. apply app_eq_nil in E as [_ E]. now apply IH.
Qed.

Lemma cue_starts_word cue text :
  In cue cues -> word_after (MState None (cue ++ text) []) = true.
Proof.
  intros H. unfold cues in H. simpl in H.
  destruct H as [<-|[<-|[<-|[<-|[]]]]]; reflexivity.
Qed.

Lemma cue_nonempty cue : In cue cues -> cue <> [].
Proof.
  intros H. unfold cues in H. simpl in H.
  destruct H as [<-|[<-|[<-|[<-|[]]]]]; discriminate.
Qed.

Lemma after_cue_head text st' :
  hd_error (after_cue text) = Some st' ->
  exists ws w,
    text = ws ++ w ++ rest st'
    /\ ws <> [] /\ Forall (fun c => is_space c = true) ws
    /\ w <> [] /\ Forall (fun c => is_lower c = true) w
    /\ stops is_lower (rest st')
    /\ prev st' = Some (last w space) /\ caps st' = [].
Proof.
  unfold after_cue. destruct text as [|c text']; [discriminate|].
  destruct (is_space c) eqn:Hc; [|discriminate].
  set (text := c :: text').
  pose proof (take_drop_while is_lower (drop_while is_space text)) as E.
  pose proof (take_while_all is_lower (drop_while is_space text)) as Hw.
  pose proof (drop_while_stops is_lower (drop_while is_space text)) as Hs.
  revert E Hw Hs.
  generalize (take_while is_lower (drop_while is_space text)) as w.
  generalize (drop_while is_lower (drop_while is_space text)) as r.
  intros r w E Hw Hs H. rewrite E in H.
  destruct w as [|l w'].
  - cbn [app] in H. now rewrite greedy_stops in H.
  - destruct (greedy_head is_lower [] (l :: w') r) as [tl G];
      [discriminate|assumption|assumption|].
    rewrite G in H. injection H as <-. cbn [rest prev caps].
    exists (take_while is_space text), (l :: w').
    repeat split; try assumption; try discriminate.
    + rewrite <- E. apply take_drop_while.
    + unfold text. simpl. rewrite Hc. discriminate.
    + apply take_while_all.
Qed.

Lemma after_cue_app ws w text :
  ws <> [] -> Forall (fun c => is_space c = true) ws ->
  w <> [] -> Forall (fun c => is_lower c = true) w ->
  stops is_lower text ->
  exists tl,
    after_cue (ws ++ w ++ text) = MState (Some (last w space)) text [] :: tl.
Proof.
  intros Hws Hsp Hw Hlo Hs.
  destruct ws as [|c ws']; [congruence|].
  cbn [app after_cue]. inversion Hsp as [|? ? Hc Hsp']; subst. rewrite Hc.
  change (c :: ws' ++ w ++ text) with ((c :: ws') ++ w ++ text).
  rewrite drop_while_app; [now apply greedy_head|assumption|].
  destruct w as [|l w']; [congruence|]. inversion Hlo; subst.
  now apply lower_not_space.
Qed.

(** The engine finds a match at the cursor exactly where a cue occurs, and
    then it is that occurrence. *)
Lemma match_here_negation_some pv text st' :
  match_here negation_re pv text false = Some st' ->
  exists cue ws w,
    occurrence pv text cue ws w (rest st')
    /\ prev st' = Some (last w space) /\ caps st' = [].
Proof.
  rewrite match_here_negation.
  destruct (xorb (word_char pv) (word_after (MState pv text []))) eqn:B;
    [|discriminate].
  intros H. apply hd_flat_map in H as (cue & Hcue & H).
  destruct (strip_prefix cue text) as [text'|] eqn:Ep; [|discriminate].
  apply strip_prefix_some in Ep. subst text.
  apply after_cue_head in H
    as (ws & w & E & Hws & Hsp & Hw & Hlo & Hs & Hpv & Hcs).
  exists cue, ws, w. split; [|auto]. subst text'.
  constructor; try assumption.
  change (word_after (MState pv (cue ++ ws ++ w ++ rest st') []))
    with (word_after (MState None (cue ++ ws ++ w ++ rest st') [])) in B.
  rewrite cue_starts_word in B by assumption.
  destruct pv as [c|]; [|exact I]. simpl in B. now destruct (is_word c).
Qed.

Lemma match_here_negation_none pv text :
  match_here negation_re pv text false = None ->
  forall cue ws w rest', ~ occurrence pv text cue ws w rest'.
Proof.
  intros H cue ws w rest' O.
  destruct O as [cue ws w rest' Hcue Hpv Hws Hsp Hw Hlo Hs].
  rewrite match_here_negation in H.
  change (word_after (MState pv (cue ++ ws ++ w ++ rest') []))
    with (word_after (MState None (cue ++ ws ++ w ++ rest') [])) in H.
  rewrite cue_starts_word in H by assumption.
  assert (Hb : word_char pv = false) by (destruct pv; [exact Hpv|reflexivity]).
  rewrite Hb in H. cbn [xorb] in H.
  destruct (cue_matches (cue ++ ws ++ w ++ rest')) eqn:E; [|discriminate].
  revert E. apply flat_map_cons_in with (a := cue); [assumption|].
  rewrite strip_prefix_app.
  destruct (after_cue_app ws w rest') as [tl ->]; try assumption.
  discriminate.
Qed.

(** The replacement of one match: the marker goes between the whitespace
    and the word. *)
Lemma match_here_space_word_none pv c text must_advance :
  is_space c = false ->
  match_here space_word_re pv (c :: text) must_advance = None.
Proof.
  intros Hc. unfold match_here, space_word_re.
  rewrite rmatch_cat, rmatch_grp, rmatch_plus_cls. cbn [rest caps greedy].
  now rewrite Hc.
Qed.

Lemma firstn_app_length (w text : str) :
  firstn (length (w ++ text) - length text) (w ++ text) = w.
Proof.
  rewrite length_app, Nat.add_sub, firstn_app, Nat.sub_diag, firstn_all.
  simpl. apply app_nil_r.
Qed.

Lemma match_here_space_word pv ws w must_advance :
  ws <> [] -> Forall (fun c => is_space c = true) ws ->
  w <> [] -> Forall (fun c => is_lower c = true) w ->
  match_here space_word_re pv (ws ++ w) must_advance
  = Some (MState (Some (last w space)) [] [(2, w); (1, ws)]).
Proof.
  intros Hws Hsp Hw Hlo. unfold match_here, space_word_re.
  rewrite rmatch_cat, rmatch_grp, rmatch_plus_cls. cbn [rest caps].
  destruct (greedy_head is_space [] ws w Hws Hsp) as [tl1 E1].
  { destruct w as [|l w']; [congruence|]. inversion Hlo; subst.
    now apply lower_not_space. }
  rewrite E1. cbn [map flat_map].
  unfold set_cap at 1. unfold consumed at 1. cbn [rest prev caps].
  rewrite firstn_app_length, rmatch_grp, rmatch_plus_cls. cbn [rest caps].
  match goal with
  | |- context [greedy is_word ?cs w] =>
      destruct (greedy_head is_word cs w [] Hw) as [tl2 E2]; [|exact I|]
  end.
  { eapply Forall_impl; [|exact Hlo]. intros c. apply lower_is_word. }
  rewrite app_nil_r in E2. rewrite E2. cbn [map app find].
  unfold set_cap, consumed. cbn [rest prev caps length].
  rewrite Nat.sub_0_r, firstn_all.
  replace (0 =? length (ws ++ w)) with false; [now rewrite andb_false_r|].
  symmetry. apply Nat.eqb_neq. rewrite length_app.
  destruct ws; [congruence|simpl; lia].
Qed.

Lemma sub_loop_space_word ws w :
  ws <> [] -> Forall (fun c => is_space c = true) ws ->
  w <> [] -> Forall (fun c => is_lower c = true) w ->
  forall pre fuel pv must_advance,
    Forall (fun c => is_space c = false) pre ->
    length (pre ++ ws ++ w) < fuel ->
    sub_loop space_word_re (expand ([TGrp 1] ++ map TLit NEG ++ [TGrp 2]))
             fuel pv (pre ++ ws ++ w) must_advance
    = pre ++ ws ++ NEG ++ w.
Proof.
  intros Hws Hsp Hw Hlo.
  induction pre as [|c pre IH]; intros fuel pv ma Hpre Hlen;
    (destruct fuel as [|fuel]; [lia|]); cbn [sub_loop app].
  - rewrite match_here_space_word by assumption. cbn [rest prev caps length].
    rewrite Nat.sub_0_r, firstn_all.
    assert (Hend : forall b, sub_loop space_word_re
                     (expand ([TGrp 1] ++ map TLit NEG ++ [TGrp 2]))
                     fuel (Some (last w space)) [] b = [])
      by (intros b; destruct fuel; reflexivity).
    rewrite Hend. unfold expand. cbn. now rewrite !app_nil_r.
  - inversion Hpre; subst.
    rewrite match_here_space_word_none by assumption.
    f_equal. apply IH; [assumption|]. cbn [app length] in Hlen. lia.
Qed.

Lemma cue_no_space cue :
  In cue cues -> Forall (fun c => is_space c = false) cue.
Proof.
  intros H. unfold cues in H. simpl in H.
  destruct H as [<-|[<-|[<-|[<-|[]]]]]; repeat constructor.
Qed.

Lemma neg_repl_cue cue ws w caps :
  In cue cues ->
  ws <> [] -> Forall (fun c => is_space c = true) ws ->
  w <> [] -> Forall (fun c => is_lower c = true) w ->
  neg_repl (MObj (cue ++ ws ++ w) caps) = cue ++ ws ++ NEG ++ w.
Proof.
  intros Hcue Hws Hsp Hw Hlo. unfold neg_repl, re_sub. cbn [group group0].
  apply sub_loop_space_word; try assumption; [now apply cue_no_space|lia].
Qed.

Lemma sub_loop_negation :
  forall fuel pv text,
    length text < fuel ->
    tagged pv text (sub_loop negation_re neg_repl fuel pv text false).
Proof.
  induction fuel as [|fuel IH]; intros pv text Hlen; [lia|].
  cbn [sub_loop].
  destruct (match_here negation_re pv text false) as [st'|] eqn:E.
  - apply match_here_negation_some in E as (cue & ws & w & O & Hpv & Hcs).
    pose proof O as O'. revert Hlen Hpv Hcs O'.
    destruct O as [cue ws w rest' Hcue Hb Hws Hsp Hw Hlo Hs].
    intros Hlen Hpv Hcs O'. rewrite Hpv.
    assert (Hg : firstn (length (cue ++ ws ++ w ++ rest') - length rest')
                        (cue ++ ws ++ w ++ rest') = cue ++ ws ++ w).
    { replace (cue ++ ws ++ w ++ rest') with ((cue ++ ws ++ w) ++ rest')
        by now rewrite <- !app_assoc.
      apply firstn_app_length. }
    rewrite !Hg, neg_repl_cue by assumption.
    replace (is_nil (cue ++ ws ++ w)) with false
      by (pose proof (cue_nonempty cue Hcue); now destruct cue).
    replace ((cue ++ ws ++ NEG ++ w) ++
             sub_loop negation_re neg_repl fuel (Some (last w space)) rest' false)
      with (cue ++ ws ++ NEG ++ w ++
            sub_loop negation_re neg_repl fuel (Some (last w space)) rest' false)
      by now rewrite <- !app_assoc.
    eapply tagged_cue; [exact O'|]. apply IH.
    rewrite !length_app in Hlen.
    pose proof (cue_nonempty cue Hcue). destruct cue; [congruence|].
    cbn [length] in Hlen. lia.
  - destruct text as [|c text']; [constructor|].
    apply tagged_copy; [now apply match_here_negation_none|].
    apply IH. cbn [length] in Hlen. lia.
Qed.

Lemma negation_handle_tagged text : tagged None text (negation_handle text).
Proof. apply sub_loop_negation. lia. Qed.

(** Where no cue is followed by whitespace and a lowercase letter, nothing
    is tagged. *)
Lemma tagged_without_cue pv text out :
  tagged pv text out ->
  forall before,
    (forall pre cue ws l post,
        In cue cues -> ws <> [] -> Forall (fun c => is_space c = true) ws ->
        is_lower l = true ->
        before ++ text <> pre ++ cue ++ ws ++ l :: post) ->
    out = text.
Proof.
  induction 1 as [pv|pv text cue ws w rest' out O _ _|pv c text out _ _ IH];
    intros before Hno.
  - reflexivity.
  - exfalso. destruct O as [cue ws w rest' Hcue Hb Hws Hsp Hw Hlo Hs].
    destruct w as [|l w']; [congruence|]. inversion Hlo; subst.
    apply (Hno before cue ws l (w' ++ rest')); auto.
  - f_equal. apply (IH (before ++ [c])). intros pre cue ws l post.
    rewrite <- app_assoc. apply Hno.
Qed.

(** The description leaves no choice: a text has one tagged form. *)
Lemma run_unique p : forall a a' b b',
  Forall (fun c => p c = true) a -> Forall (fun c => p c = true) a' ->
  stops p b -> stops p b' ->
  a ++ b = a' ++ b' -> a = a' /\ b = b'.
Proof.
  induction a as [|c a IH]; intros a' b b' Ha Ha' Hb Hb' E.
  - destruct a' as [|c' a']; [auto|]. exfalso. cbn [app] in E. subst b.
    inversion Ha'; subst. simpl in Hb. congruence.
  - destruct a' as [|c' a'].
    + exfalso. cbn [app] in E. subst b'. inversion Ha; subst.
      simpl in Hb'. congruence.
    + cbn [app] in E. injection E as -> E.
      inversion Ha; inversion Ha'; subst.
      destruct (IH a' b b') as [-> ->]; auto.
Qed.

Lemma cue_unique cue cue' c c' text text' :
  In cue cues -> In cue' cues ->
  is_space c = true -> is_space c' = true ->
  cue ++ c :: text = cue' ++ c' :: text' -> cue = cue'.
Proof.
  intros H H' Hc Hc' E. unfold cues in H, H'. simpl in H, H'.
  destruct H as [<-|[<-|[<-|[<-|[]]]]];
    destruct H' as [<-|[<-|[<-|[<-|[]]]]];
    try reflexivity; exfalso; cbn [txt list_ascii_of_string app] in E;
    try discriminate E; injection E; intros; subst;
    try discriminate Hc; discriminate Hc'.
Qed.

Lemma occurrence_unique pv text cue ws w rest' cue' ws' w' rest'' :
  occurrence pv text cue ws w rest' ->
  occurrence pv text cue' ws' w' rest'' ->
  cue = cue' /\ ws = ws' /\ w = w' /\ rest' = rest''.
Proof.
  intros O O'.
  destruct O as [cue ws w rest' Hcue _ Hws Hsp Hw Hlo Hs].
  inversion O' as [? ? ? ? Hcue' _ Hws' Hsp' Hw' Hlo' Hs' E]; subst.
  assert (Hst : forall v r, v <> [] -> Forall (fun c => is_lower c = true) v ->
                  stops is_space (v ++ r)).
  { intros [|l v] r Hne Hv; [congruence|]. inversion Hv; subst.
    now apply lower_not_space. }
  assert (Ec : cue' = cue).
  { destruct ws as [|c ws]; [congruence|].
    destruct ws' as [|c' ws']; [congruence|].
    inversion Hsp as [|? ? Hc _]; inversion Hsp' as [|? ? Hc' _]; subst.
    cbn [app] in E.
    exact (cue_unique cue' cue c' c _ _ Hcue' Hcue Hc' Hc E). }
  subst cue'. apply app_inv_head in E.
  destruct (run_unique is_space ws' ws (w' ++ rest'') (w ++ rest'))
    as [-> E']; auto.
  destruct (run_unique is_lower w' w rest'' rest') as [-> ->]; auto.
Qed.

Lemma tagged_functional pv text out :
  tagged pv text out -> forall out', tagged pv text out' -> out = out'.
Proof.
  induction 1 as [pv|pv text cue ws w rest' out O _ IH|pv c text out Hno _ IH];
    intros out' H'.
  - inversion H' as [|? ? cue ws w rest' ? O|]; subst; [reflexivity|].
    exfalso. inversion O as [? ? ? ? Hcue _ _ _ _ _ _ E]. subst.
    apply app_eq_nil in E as [E _]. now apply (cue_nonempty cue).
  - inversion H' as [|? ? cue' ws' w' rest'' out'' O' H''|? ? ? ? Hno]; subst.
    + exfalso. inversion O as [? ? ? ? Hcue _ _ _ _ _ _ E]. subst.
      apply app_eq_nil in E as [E _]. now apply (cue_nonempty cue).
    + destruct (occurrence_unique _ _ _ _ _ _ _ _ _ _ O O')
        as (-> & -> & -> & ->).
      now rewrite (IH _ H'').
    + exfalso. exact (Hno _ _ _ _ O).
  - inversion H' as [|? ? cue' ws' w' rest'' out'' O' H''|? ? ? ? _ H'']; subst.
    + exfalso. exact (Hno _ _ _ _ O').
    + f_equal. now apply IH.
Qed.

(** C4: [negation_handle] scans the text from left to right; where a cue
    word ([not], [no], [never], [cannot]) stands as a whole word, followed by
    whitespace and a lowercase word, that word, and only it, gets the marker
    [NEG] in front, with no space in between, and the scan goes on behind
    the word; the cue and all other text are copied.  The result is the one
    text so described, and a cue with no lowercase word behind it changes
    nothing. *)
Theorem negation_handle_tags_next_word text :
  (forall out, tagged None text out <-> out = negation_handle text)
  /\ ((forall pre cue ws l post,
          In cue cues -> ws <> [] -> Forall (fun c => is_space c = true) ws ->
          is_lower l = true ->
          text <> pre ++ cue ++ ws ++ l :: post) ->
      negation_handle text = text).
Proof.
  split.
  - intros out. split.
    + intros H. symmetry.
      exact (tagged_functional None text _ (negation_handle_tagged text) out H).
    + intros ->. apply negation_handle_tagged.
  - intros Hno.
    apply (tagged_without_cue None text _ (negation_handle_tagged text) []).
    exact Hno.
Qed.

(** ** The cleaned text has the promised shape *)





Lemma cue_lower cue : In cue cues -> lower_word cue.
Proof.
  intros H. unfold cues in H. simpl in H.
  destruct H as [<-|[<-|[<-|[<-|[]]]]]; repeat constructor.
Qed.







Section Shape.

Variable contractions_fix : str -> str.
Variable stop_words : list str.
Variable pos_tag : list str -> list (str * str).
Variable wordnet_lemmatize : str -> str -> str.

(** The contraction expander turns text without capitals into text without
    capitals. *)
Hypothesis fix_keeps_lower :
  forall text,
    Forall (fun c => is_upper c = false) text ->
    Forall (fun c => is_upper c = false) (contractions_fix text).





End Shape.

(** ** The sample collaborators meet the assumptions *)

Lemma lookup_ok (P : ascii -> Prop) table key :
  Forall (fun kv => Forall P (fst kv) -> Forall P (snd kv)) table ->
  Forall P key -> Forall P (lookup key table).
Proof.
  induction 1 as [|[k v] table Hkv _ IH]; intros Hkey; simpl; [exact Hkey|].
  unfold str_eqb. destruct (list_eq_dec ascii_dec k key) as [->|_]; auto.
Qed.

Lemma sample_fix_ok (P : ascii -> Prop) :
  Forall (fun kv => Forall P (fst kv) -> Forall P (snd kv)) sample_contractions ->
  forall text, Forall P text -> Forall P (sample_fix text).
Proof.
  intros Htable text Htext. unfold sample_fix.
  apply re_sub_ok; [|exact Htext].
  intros m H0 _. now apply lookup_ok.
Qed.


Lemma sample_fix_keeps_letterless text :
  Forall (fun c => is_alpha c = false) text ->
  Forall (fun c => is_alpha c = false) (sample_fix text).
Proof.
  apply sample_fix_ok. unfold sample_contractions.
  cbn [map fst snd txt list_ascii_of_string].
  repeat (apply Forall_cons; [intros H; inversion H; discriminate|]).
  constructor.
Qed.

(** ** No exception, and degenerate inputs give the empty text *)

Lemma split_spaces text :
  Forall (fun c => is_space c = true) text -> split text = [].
Proof.
  induction 1 as [|c text Hc _ IH]; [reflexivity|].
  now rewrite split_cons_space.
Qed.

Lemma blank_letterless text :
  Forall (fun c => is_alpha c = false) text ->
  Forall (fun c => is_space c = true) (map blank text).
Proof.
  intros H. apply Forall_map. eapply Forall_impl; [|exact H].
  intros c Hc. unfold blank. now rewrite Hc.
Qed.

Lemma negation_handle_letterless text :
  Forall (fun c => is_alpha c = false) text -> negation_handle text = text.
Proof.
  intros H.
  apply (tagged_without_cue None text _ (negation_handle_tagged text) []).
  intros pre cue ws l post _ _ _ Hl E. cbn [app] in E. rewrite E in H.
  apply Forall_app in H as [_ H]. apply Forall_app in H as [_ H].
  apply Forall_app in H as [_ H]. inversion H; subst.
  apply lower_is_alpha in Hl. congruence.
Qed.

Section Total.

Variable contractions_fix : str -> str.
Variable stop_words : list str.
Variable pos_tag : list str -> list (str * str).
Variable wordnet_lemmatize : str -> str -> str.

(** The contraction expander makes no letters out of text without
    letters. *)
Hypothesis fix_keeps_letterless :
  forall text,
    Forall (fun c => is_alpha c = false) text ->
    Forall (fun c => is_alpha c = false) (contractions_fix text).

(** The tagger returns the tokens it was given, each with a tag that is not
    empty. *)
Hypothesis pos_tag_words : forall words, map fst (pos_tag words) = words.
Hypothesis pos_tag_tags :
  forall words, Forall (fun wt => snd wt <> []) (pos_tag words).

Lemma lemmatize_loop_total split_text :
  Forall (fun wt => snd wt <> []) split_text ->
  exists result,
    lemmatize_loop wordnet_lemmatize split_text = Some result.
Proof.
  induction 1 as [|[word tag] split_text Htag _ [result IH]];
    cbn [lemmatize_loop]; [now exists []|].
  rewrite IH. unfold lemmatize_word.
  destruct tag as [|t0 tag']; [now contradiction Htag|].
  destruct (mem [lower_char t0] [txt "a"; txt "n"; txt "v"; txt "r"]);
    eexists; reflexivity.
Qed.

Lemma lemmatize_total text :
  exists out, lemmatize pos_tag wordnet_lemmatize text = Some out.
Proof.
  unfold lemmatize.
  destruct (lemmatize_loop_total (pos_tag (split text)) (pos_tag_tags _))
    as [result ->].
  eexists. reflexivity.
Qed.

Lemma lemmatize_nil : lemmatize pos_tag wordnet_lemmatize [] = Some [].
Proof.
  unfold lemmatize. cbn [split].
  pose proof (pos_tag_words []) as E. destruct (pos_tag []); [reflexivity|].
  discriminate.
Qed.

Lemma tagged_text_letterless text hn :
  Forall (fun c => is_alpha c = false) text ->
  Forall (fun c => is_alpha c = false)
         (tagged_text contractions_fix stop_words text hn).
Proof.
  intros H. unfold tagged_text. cbv zeta.
  assert (Hn : Forall (fun c => is_alpha c = false)
                 (remove_noise_texts
                    (expand_contractions contractions_fix (lower text)))).
  { apply remove_noise_texts_ok, fix_keeps_letterless, Forall_map.
    eapply Forall_impl; [|exact H]. intros c Hc. now rewrite lower_char_alpha. }
  destruct hn; [|exact Hn].
  assert (Hs : Forall (fun c => is_alpha c = false)
                 (remove_stopwords stop_words
                    (remove_noise_texts
                       (expand_contractions contractions_fix (lower text)))
                    true))
    by (apply remove_stopwords_ok; [reflexivity|exact Hn]).
  now rewrite negation_handle_letterless.
Qed.

(** C6: [data_cleaning] raises on no input, whatever the switches, and on a
    text without letters (the empty text, punctuation, digits) it returns
    the empty text. *)
Theorem data_cleaning_total :
  (forall text handle_neg remove_all_stopword is_lemmatized,
      exists out,
        data_cleaning contractions_fix stop_words pos_tag wordnet_lemmatize
          text handle_neg remove_all_stopword is_lemmatized = Some out)
  /\ (forall text handle_neg remove_all_stopword is_lemmatized,
         Forall (fun c => is_alpha c = false) text ->
         data_cleaning contractions_fix stop_words pos_tag wordnet_lemmatize
           text handle_neg remove_all_stopword is_lemmatized = Some []).
Proof.
  split.
  - intros text hn ra lem. unfold data_cleaning. cbv zeta.
    destruct lem; [|eexists; reflexivity].
    match goal with
    | |- context [lemmatize pos_tag wordnet_lemmatize ?t] =>
        destruct (lemmatize_total t) as [out ->]
    end.
    eexists. reflexivity.
  - intros text hn ra lem H. unfold data_cleaning. cbv zeta.
    fold (tagged_text contractions_fix stop_words text hn).
    rewrite remove_non_alpha_map.
    change (map (fun c => if negb (is_alpha c) then space else c))
      with (map blank).
    unfold remove_short_words.
    rewrite split_spaces
      by (apply blank_letterless, tagged_text_letterless, H).
    cbn [filter join].
    change (remove_spaces []) with (@nil ascii).
    destruct lem; [rewrite lemmatize_nil|]; destruct ra; reflexivity.
Qed.

End Total.

Lemma data_cleaning_total_witness :
  (forall text handle_neg remove_all_stopword is_lemmatized,
      exists out,
        data_cleaning sample_fix nltk_english sample_pos_tag sample_lemmatize
          text handle_neg remove_all_stopword is_lemmatized = Some out)
  /\ (forall text handle_neg remove_all_stopword is_lemmatized,
         Forall (fun c => is_alpha c = false) text ->
         data_cleaning sample_fix nltk_english sample_pos_tag sample_lemmatize
           text handle_neg remove_all_stopword is_lemmatized = Some []).
Proof.
  apply data_cleaning_total.
  - exact sample_fix_keeps_letterless.
  - intros words. unfold sample_pos_tag. rewrite map_map. apply map_id.
  - intros words. unfold sample_pos_tag. apply Forall_map, Forall_forall.
    intros w _. discriminate.
Defined.

(** * Properties of the single stages *)

(** ** Subsequences *)

Lemma subseq_refl a : subseq a a.
Proof. induction a; [apply subseq_nil|now apply subseq_keep]. Qed.

Lemma subseq_nil_l b : subseq [] b.
Proof. induction b; constructor; auto. Qed.

Lemma subseq_app a a' b b' : subseq a b -> subseq a' b' -> subseq (a ++ a') (b ++ b').
Proof.
  induction 1; intros H'; simpl;
    [assumption|apply subseq_skip; auto|apply subseq_keep; auto].
Qed.

Lemma subseq_app_l a b pre : subseq a b -> subseq a (pre ++ b).
Proof. intros H. induction pre; simpl; [assumption|now constructor]. Qed.

Lemma subseq_app_r a b post : subseq a b -> subseq a (b ++ post).
Proof.
  intros H. rewrite <- (app_nil_r a). apply subseq_app; [assumption|].
  apply subseq_nil_l.
Qed.

Lemma subseq_trans a b c : subseq a b -> subseq b c -> subseq a c.
Proof.
  intros Hab Hbc. revert a Hab.
  induction Hbc as [|b d c Hbc IH|d b c Hbc IH]; intros a Hab.
  - assumption.
  - apply subseq_skip. now apply IH.
  - inversion Hab; subst; [apply subseq_skip|apply subseq_keep]; auto.
Qed.

Lemma subseq_length a b : subseq a b -> length a <= length b.
Proof. induction 1; simpl; lia. Qed.

Lemma subseq_In a b c : subseq a b -> In c a -> In c b.
Proof.
  induction 1 as [|a d b _ IH|d a b _ IH]; intros H; simpl in *; auto.
  destruct H; auto.
Qed.

(** ** What a match reads and captures *)

Lemma extends_refl st : extends st st.
Proof.
  exists []. split; [reflexivity|]. apply Forall_forall. auto.
Qed.

Lemma extends_trans st1 st2 st3 : extends st1 st2 -> extends st2 st3 -> extends st1 st3.
Proof.
  intros (m1 & E1 & C1) (m2 & E2 & C2). exists (m1 ++ m2).
  split; [now rewrite E1, E2, app_assoc|].
  rewrite Forall_forall in *. intros kv Hkv.
  destruct (C2 kv Hkv) as [Hin|Hs].
  - destruct (C1 kv Hin) as [Hin'|Hs]; [now left|right].
    now apply subseq_app_r.
  - right. now apply subseq_app_l.
Qed.

Lemma extends_eat c text st :
  rest st = c :: text -> extends st (eat c text st).
Proof.
  intros E. exists [c]. split; [exact E|]. apply Forall_forall. auto.
Qed.

Lemma step_char_extends p st : Forall (extends st) (step_char p st).
Proof.
  unfold step_char. destruct (rest st) as [|c text] eqn:E; [constructor|].
  destruct (p c); constructor; [now apply extends_eat|constructor].
Qed.

Lemma step_lit_extends w : forall st, Forall (extends st) (step_lit w st).
Proof.
  induction w as [|a w IH]; intros st; simpl.
  - constructor; [apply extends_refl|constructor].
  - destruct (rest st) as [|c text] eqn:E; [constructor|].
    destruct (Ascii.eqb a c); [|constructor].
    eapply Forall_impl; [|apply IH]. intros st'.
    apply extends_trans. now apply extends_eat.
Qed.

Lemma Forall_flat_map_trans (f : mstate -> list mstate) l st :
  Forall (extends st) l -> (forall st', Forall (extends st') (f st')) ->
  Forall (extends st) (flat_map f l).
Proof.
  intros Hl Hf. induction Hl as [|st1 l H1 _ IH]; simpl; [constructor|].
  apply Forall_app. split; [|exact IH].
  eapply Forall_impl; [|apply Hf]. intros st'. now apply extends_trans.
Qed.

Lemma iter_plus_extends body :
  (forall st, Forall (extends st) (body st)) ->
  forall fuel st, Forall (extends st) (iter_plus body fuel st).
Proof.
  intros Hbody. induction fuel as [|fuel IH]; intros st; simpl; [constructor|].
  apply Forall_flat_map_trans; [apply Hbody|].
  intros st'. apply Forall_app. split.
  - destruct (length (rest st') <? length (rest st)); [apply IH|constructor].
  - constructor; [apply extends_refl|constructor].
Qed.

Lemma consumed_mid st st' mid :
  rest st = mid ++ rest st' -> consumed st st' = mid.
Proof. intros E. unfold consumed. rewrite E. apply firstn_app_length. Qed.

Lemma set_cap_extends n st st' : extends st st' -> extends st (set_cap n st st').
Proof.
  intros (mid & E & C). exists mid. split; [exact E|].
  cbn [set_cap caps]. constructor; [|exact C].
  right. cbn [snd]. rewrite (consumed_mid st st' mid E). apply subseq_refl.
Qed.

Lemma rmatch_extends r : forall st, Forall (extends st) (rmatch r st).
Proof.
  induction r as [|a| |p|r1 IH1 r2 IH2|r1 IH1 r2 IH2|r1 IH1|r1 IH1|n r1 IH1|n|];
    intros st; cbn [rmatch].
  - constructor; [apply extends_refl|constructor].
  - apply step_char_extends.
  - apply step_char_extends.
  - apply step_char_extends.
  - apply Forall_flat_map_trans; auto.
  - apply Forall_app. split; auto.
  - apply iter_plus_extends; auto.
  - apply Forall_app. split; [auto|].
    constructor; [apply extends_refl|constructor].
  - specialize (IH1 st). induction IH1; simpl; constructor; auto.
    now apply set_cap_extends.
  - destruct (get_cap n (caps st)); [apply step_lit_extends|constructor].
  - destruct (xorb (word_before st) (word_after st)); constructor;
      [apply extends_refl|constructor].
Qed.

(** A match at the cursor reads a prefix of the text, and its groups are
    pieces of that prefix. *)
Lemma match_here_reads r pv text must_advance st' :
  match_here r pv text must_advance = Some st' ->
  text = firstn (length text - length (rest st')) text ++ rest st'
  /\ Forall (fun kv => subseq (snd kv)
                         (firstn (length text - length (rest st')) text))
            (caps st')
  /\ (must_advance = true -> length (rest st') < length text).
Proof.
  intros E. unfold match_here in E. apply find_some in E as [Hin Hp].
  pose proof (rmatch_extends r (MState pv text [])) as H.
  rewrite Forall_forall in H. destruct (H st' Hin) as (mid & Em & C).
  cbn [rest caps] in *. subst text. rewrite firstn_app_length.
  split; [reflexivity|]. split.
  - eapply Forall_impl; [|exact C]. intros kv [[]|Hs]. exact Hs.
  - intros ->. cbn [andb] in Hp. apply negb_true_iff, Nat.eqb_neq in Hp.
    rewrite length_app in *. lia.
Qed.

Lemma sub_loop_subst r repl :
  forall fuel pv text (must_advance : bool),
    2 * length text + (if must_advance then 0 else 1) < fuel ->
    subst r repl pv text must_advance
          (sub_loop r repl fuel pv text must_advance).
Proof.
  induction fuel as [|fuel IH]; intros pv text ma Hlen; [lia|].
  cbn [sub_loop].
  destruct (match_here r pv text ma) as [st'|] eqn:E.
  - destruct (match_here_reads r pv text ma st' E) as (Et & _ & Hadv).
    apply subst_match; [exact E|]. apply IH.
    set (g0 := firstn (length text - length (rest st')) text) in *.
    assert (Hl : length text = length g0 + length (rest st'))
      by (rewrite Et at 1; apply length_app).
    destruct g0 as [|c g0]; cbn [is_nil length] in *.
    + destruct ma; [specialize (Hadv eq_refl)|]; lia.
    + destruct ma; lia.
  - destruct text as [|c text'].
    + now apply subst_end.
    + apply subst_copy; [exact E|]. apply IH. cbn [length] in Hlen.
      destruct ma; lia.
Qed.

Lemma re_sub_subst r repl text :
  subst r repl None text false (re_sub r repl text).
Proof. apply sub_loop_subst. lia. Qed.

(** ** [remove_stopwords] and [remove_short_words] on their own *)

Lemma str_eqb_eq a b : str_eqb a b = true <-> a = b.
Proof.
  unfold str_eqb. destruct (list_eq_dec ascii_dec a b); split; congruence.
Qed.

Lemma mem_cons word x words :
  mem word (x :: words) = str_eqb word x || mem word words.
Proof. reflexivity. Qed.

Lemma mem_filter_out word words others :
  mem word (filter (fun x => negb (mem x others)) words)
  = mem word words && negb (mem word others).
Proof.
  induction words as [|x words IH]; [reflexivity|].
  cbn [filter]. rewrite mem_cons.
  destruct (str_eqb word x) eqn:E.
  - apply str_eqb_eq in E. subst x.
    destruct (mem word others) eqn:Eo; cbn [negb orb andb].
    + rewrite IH. apply andb_false_r.
    + rewrite mem_cons, (proj2 (str_eqb_eq word word) eq_refl). reflexivity.
  - destruct (mem x others); cbn [negb orb]; rewrite ?mem_cons, ?E; exact IH.
Qed.

Lemma remove_stopwords_kept stop_words text neg_keep :
  remove_stopwords stop_words text neg_keep
  = join [space] (filter (kept_word stop_words neg_keep) (split text)).
Proof.
  unfold remove_stopwords. cbv zeta. f_equal. apply filter_ext. intros w.
  unfold kept_word. destruct neg_keep.
  - rewrite mem_filter_out, negb_andb, negb_involutive. reflexivity.
  - now rewrite orb_false_r.
Qed.

Lemma filter_twice {A} (f : A -> bool) l : filter f (filter f l) = filter f l.
Proof.
  induction l as [|x l IH]; [reflexivity|]. simpl.
  destruct (f x) eqn:E; simpl; rewrite ?E, IH; reflexivity.
Qed.

(** X1: the words of [remove_stopwords]'s result are the words of the text
    that are not stop words, in their order; with [neg_keep] the words
    [not], [no] and [nor] stay although they are stop words. *)
Theorem remove_stopwords_words stop_words text neg_keep :
  split (remove_stopwords stop_words text neg_keep)
  = filter (fun word =>
              negb (mem word stop_words)
              || (neg_keep && mem word [txt "not"; txt "no"; txt "nor"]))
           (split text).
Proof.
  rewrite remove_stopwords_kept.
  apply split_join, Forall_filter_keep, split_tokens.
Qed.

(** X2: removing the stop words a second time changes nothing. *)
Theorem remove_stopwords_idempotent stop_words text neg_keep :
  remove_stopwords stop_words (remove_stopwords stop_words text neg_keep) neg_keep
  = remove_stopwords stop_words text neg_keep.
Proof.
  rewrite !remove_stopwords_kept.
  rewrite split_join by apply Forall_filter_keep, split_tokens.
  now rewrite filter_twice.
Qed.

(** X3: [remove_short_words] keeps, in order, the words of two characters
    or more and nothing else, and running it again changes nothing. *)
Theorem remove_short_words_words text :
  split (remove_short_words text)
    = filter (fun word => 1 <? length word) (split text)
  /\ remove_short_words (remove_short_words text) = remove_short_words text.
Proof.
  assert (E : split (remove_short_words text)
              = filter (fun word => 1 <? length word) (split text))
    by apply split_join, Forall_filter_keep, split_tokens.
  split; [exact E|].
  unfold remove_short_words at 1. rewrite E, filter_twice. reflexivity.
Qed.

(** X4: the text that [remove_short_words] or [remove_stopwords] returns
    has single spaces between its words and nothing at its ends, so
    [remove_spaces] and [strip] leave it as it is. *)
Theorem joined_words_need_no_trimming stop_words text neg_keep :
  remove_spaces (remove_short_words text) = remove_short_words text
  /\ strip (remove_short_words text) = remove_short_words text
  /\ remove_spaces (remove_stopwords stop_words text neg_keep)
     = remove_stopwords stop_words text neg_keep
  /\ strip (remove_stopwords stop_words text neg_keep)
     = remove_stopwords stop_words text neg_keep.
Proof.
  rewrite remove_stopwords_kept. unfold remove_short_words.
  repeat split;
    try (apply remove_spaces_id, no_double_space_join);
    try apply strip_join;
    apply Forall_filter_keep, split_tokens.
Qed.

(** X5: [remove_non_alpha] works character by character: the result has
    the length of the text, a letter stays where it is and every other
    character becomes one space. *)
Theorem remove_non_alpha_pointwise text :
  length (remove_non_alpha text) = length text
  /\ forall i c,
       nth_error text i = Some c ->
       nth_error (remove_non_alpha text) i
       = Some (if is_alpha c then c else space).
Proof.
  rewrite remove_non_alpha_map. split; [apply length_map|].
  intros i c H. rewrite nth_error_map, H. cbn [option_map].
  now destruct (is_alpha c).
Qed.

(** ** [lemmatize] *)

Lemma lemmatize_loop_none wordnet_lemmatize split_text :
  lemmatize_loop wordnet_lemmatize split_text = None
  <-> Exists (fun wt => snd wt = []) split_text.
Proof.
  induction split_text as [|[word tag] split_text IH]; cbn [lemmatize_loop].
  - split; [discriminate|intros H; inversion H].
  - unfold lemmatize_word. destruct tag as [|t0 tag'].
    + split; [intros _; now left|reflexivity].
    + assert (Hw : exists w,
                (if mem [lower_char t0] [txt "a"; txt "n"; txt "v"; txt "r"]
                 then Some (wordnet_lemmatize word [lower_char t0])
                 else Some word) = Some w)
        by (destruct (mem _ _); eexists; reflexivity).
      destruct Hw as [w ->].
      destruct (lemmatize_loop wordnet_lemmatize split_text) eqn:E.
      * split; [discriminate|]. intros H. inversion H as [? ? H0|? ? H0]; subst.
        -- discriminate.
        -- apply IH in H0. discriminate.
      * split; [intros _; right; now apply IH|reflexivity].
Qed.

(** X6: [lemmatize] raises exactly when the tagger hands back an empty tag
    for one of the tokens; otherwise it returns a text. *)
Theorem lemmatize_raises_iff pos_tag wordnet_lemmatize text :
  lemmatize pos_tag wordnet_lemmatize text = None
  <-> Exists (fun wt => snd wt = []) (pos_tag (split text)).
Proof.
  unfold lemmatize. split.
  - intros H. apply (lemmatize_loop_none wordnet_lemmatize).
    destruct (lemmatize_loop wordnet_lemmatize (pos_tag (split text)));
      [discriminate|reflexivity].
  - intros H. apply (lemmatize_loop_none wordnet_lemmatize) in H.
    now rewrite H.
Qed.

Lemma lemmatize_loop_map wordnet_lemmatize split_text :
  Forall (fun wt => snd wt <> []) split_text ->
  lemmatize_loop wordnet_lemmatize split_text
  = Some (map (fun wt =>
                 match snd wt with
                 | t0 :: _ =>
                     if mem [lower_char t0] [txt "a"; txt "n"; txt "v"; txt "r"]
                     then wordnet_lemmatize (fst wt) [lower_char t0]
                     else fst wt
                 | [] => fst wt
                 end) split_text).
Proof.
  induction 1 as [|[word tag] split_text Ht _ IH];
    cbn [lemmatize_loop map]; [reflexivity|].
  cbn [fst snd] in *. rewrite IH. unfold lemmatize_word.
  destruct tag as [|t0 tag']; [now contradiction Ht|].
  now destruct (mem [lower_char t0] [txt "a"; txt "n"; txt "v"; txt "r"]).
Qed.

(** X7: [lemmatize] treats every token on its own.  When no tag is empty,
    the result is the list that the tagger returned, token by token and in
    its order, joined with single spaces, where a token is replaced by what
    the lemmatiser returns for it exactly when the first letter of its own
    tag, in lower case, is [a], [n], [v] or [r] (that letter is the [pos]
    argument), and is kept as it is otherwise: the adjective tags [JJ],
    [JJR], [JJS] of the Penn tag set start with [j], so the words that carry
    them are not lemmatised. *)
Theorem lemmatize_token_by_token pos_tag wordnet_lemmatize text :
  Forall (fun wt => snd wt <> []) (pos_tag (split text)) ->
  lemmatize pos_tag wordnet_lemmatize text
  = Some (join [space]
            (map (fun wt =>
                    match snd wt with
                    | t0 :: _ =>
                        if mem [lower_char t0]
                               [txt "a"; txt "n"; txt "v"; txt "r"]
                        then wordnet_lemmatize (fst wt) [lower_char t0]
                        else fst wt
                    | [] => fst wt
                    end) (pos_tag (split text)))).
Proof.
  intros Ht. unfold lemmatize.
  now rewrite (lemmatize_loop_map wordnet_lemmatize _ Ht).
Qed.

Lemma lemmatize_token_by_token_witness :
  Forall (fun wt => snd wt <> [])
         (mixed_pos_tag (split (txt "dogs big  cats ")))
  /\ lemmatize mixed_pos_tag marking_lemmatize (txt "dogs big  cats ")
     = Some (txt "dogs/n big cats/n").
Proof.
  assert (E : mixed_pos_tag (split (txt "dogs big  cats "))
              = [(txt "dogs", txt "NNS"); (txt "big", txt "JJ");
                 (txt "cats", txt "NNS")])
    by (vm_compute; reflexivity).
  assert (H : Forall (fun wt : str * str => snd wt <> [])
                     (mixed_pos_tag (split (txt "dogs big  cats "))))
    by (rewrite E; repeat constructor; discriminate).
  split; [exact H|].
  rewrite (lemmatize_token_by_token mixed_pos_tag marking_lemmatize _ H).
  rewrite E. vm_compute. reflexivity.
Defined.

(** ** [data_cleaning] and the stop words *)

(** X8: with [remove_all_stopword] on and the lemmatiser off, no word of
    the result is a stop word, whatever the other switch. *)
Theorem data_cleaning_drops_stop_words
  contractions_fix stop_words pos_tag wordnet_lemmatize text handle_neg :
  exists out,
    data_cleaning contractions_fix stop_words pos_tag wordnet_lemmatize
      text handle_neg true false = Some out
    /\ Forall (fun word => mem word stop_words = false) (split out).
Proof.
  exists (join [space] (final_words contractions_fix stop_words text handle_neg true)).
  split; [apply data_cleaning_words|].
  apply (cleaned_has_no_stop_word contractions_fix stop_words pos_tag
           wordnet_lemmatize text handle_neg).
  apply data_cleaning_words.
Qed.

(** ** [remove_noise_texts] only deletes *)

Lemma get_cap_Forall (Q : nat * str -> Prop) n cs w :
  Forall Q cs -> get_cap n cs = Some w -> exists k, Q (k, w).
Proof.
  induction cs as [|[k v] cs IH]; intros H E; simpl in E; [discriminate|].
  inversion H; subst. destruct (k =? n); [|now apply IH].
  injection E as <-. now exists k.
Qed.

Lemma subst_subseq r repl pv text must_advance out :
  (forall m, Forall (fun kv => subseq (snd kv) (group0 m)) (groups m) ->
             subseq (repl m) (group0 m)) ->
  subst r repl pv text must_advance out -> subseq out text.
Proof.
  intros Hrepl. induction 1 as [pv text ma st' out E _ IH|pv c text ma out _ _ IH|].
  - destruct (match_here_reads r pv text ma st' E) as (Et & Hc & _).
    rewrite Et at 3. apply subseq_app; [|exact IH].
    apply Hrepl. exact Hc.
  - now apply subseq_keep.
  - apply subseq_nil.
Qed.

Lemma expand_nil_subseq m : subseq (expand [] m) (group0 m).
Proof. apply subseq_nil_l. Qed.

Lemma expand_group_subseq n m :
  Forall (fun kv => subseq (snd kv) (group0 m)) (groups m) ->
  subseq (expand [TGrp (S n)] m) (group0 m).
Proof.
  intros H. unfold expand. cbn [flat_map group]. rewrite app_nil_r.
  destruct (get_cap (S n) (groups m)) as [w|] eqn:E; [|apply subseq_nil_l].
  destruct (get_cap_Forall _ _ _ _ H E) as [k Hk]. exact Hk.
Qed.

(** X9: [remove_noise_texts] writes nothing of its own: its result is the
    text with some characters left out, so it is not longer than the text
    and every character of it is a character of the text. *)
Theorem remove_noise_texts_deletes_only text :
  subseq (remove_noise_texts text) text
  /\ length (remove_noise_texts text) <= length text
  /\ forall c, In c (remove_noise_texts text) -> In c text.
Proof.
  assert (H : subseq (remove_noise_texts text) text).
  { unfold remove_noise_texts. cbv zeta.
    eapply subseq_trans; [|eapply subseq_trans; [|eapply subseq_trans]].
    - eapply subst_subseq; [|apply re_sub_subst]. intros m _.
      apply expand_nil_subseq.
    - eapply subst_subseq; [|apply re_sub_subst]. intros m _.
      apply expand_nil_subseq.
    - eapply subst_subseq; [|apply re_sub_subst]. intros m _.
      apply expand_nil_subseq.
    - eapply subst_subseq; [|apply re_sub_subst]. intros m Hm.
      now apply expand_group_subseq. }
  split; [exact H|]. split; [now apply subseq_length|].
  intros c. now apply subseq_In.
Qed.

(** ** [negation_handle] only inserts the marker *)

Lemma tagged_subseq pv text out :
  tagged pv text out ->
  subseq text out /\ Forall (fun c => In c text \/ In c NEG) out.
Proof.
  induction 1 as [pv|pv text cue ws w rest' out O _ [IH1 IH2]
                 |pv c text out _ _ [IH1 IH2]].
  - split; constructor.
  - destruct O as [cue ws w rest' _ _ _ _ _ _ _]. split.
    + apply subseq_app; [apply subseq_refl|].
      apply subseq_app; [apply subseq_refl|].
      apply subseq_app_l. apply subseq_app; [apply subseq_refl|exact IH1].
    + repeat (apply Forall_app; split);
        try (apply Forall_forall; intros c Hc; left;
             rewrite !in_app_iff; tauto).
      * apply Forall_forall. intros c Hc. now right.
      * eapply Forall_impl; [|exact IH2]. intros c [Hc|Hc]; [left|now right].
        rewrite !in_app_iff. tauto.
  - split; [now apply subseq_keep|].
    constructor; [left; now left|].
    eapply Forall_impl; [|exact IH2]. intros d [Hd|Hd]; [left; now right|now right].
Qed.

(** X10: [negation_handle] deletes nothing and writes nothing but the
    marker: the text is its result with some characters left out, and those
    are the letters [N], [E], [G]. *)
Theorem negation_handle_inserts_only text :
  subseq text (negation_handle text)
  /\ Forall (fun c => In c text \/ In c NEG) (negation_handle text).
Proof. apply (tagged_subseq None), negation_handle_tagged. Qed.

(** ** [remove_spaces] *)

Lemma drop_while_length p text : length (drop_while p text) <= length text.
Proof.
  induction text as [|c text IH]; simpl; [lia|].
  destruct (p c); simpl; lia.
Qed.

Lemma split_drop_while text : split (drop_while is_space text) = split text.
Proof.
  induction text as [|c text IH]; [reflexivity|]. cbn [drop_while].
  destruct (is_space c) eqn:E; [|reflexivity].
  now rewrite split_cons_space.
Qed.

(** Two whitespace characters at the cursor: the whole run is matched. *)
Lemma match_here_multi_spaces_run pv c c' text must_advance :
  is_space c = true -> is_space c' = true ->
  exists st',
    match_here multi_spaces_re pv (c :: c' :: text) must_advance = Some st'
    /\ rest st' = drop_while is_space text.
Proof.
  intros Hc Hc'. unfold match_here, multi_spaces_re.
  rewrite rmatch_cat.
  change (rmatch (Cls is_space) (MState pv (c :: c' :: text) []))
    with (step_char is_space (MState pv (c :: c' :: text) [])).
  unfold step_char. cbn [rest]. rewrite Hc. cbn [flat_map].
  rewrite app_nil_r, rmatch_plus_cls. unfold eat. cbn [rest caps].
  assert (G : exists tl,
             greedy is_space [] (c' :: text)
             = MState (Some (last (c' :: take_while is_space text) space))
                      (drop_while is_space text) [] :: tl).
  { pose proof (greedy_head is_space [] (c' :: take_while is_space text)
                  (drop_while is_space text)) as G.
    cbn [app] in G. rewrite <- take_drop_while in G.
    apply G; [discriminate| |apply drop_while_stops].
    constructor; [assumption|apply take_while_all]. }
  destruct G as [tl G]. rewrite G. cbn [find rest].
  assert (Hl : (length (drop_while is_space text) =? length (c :: c' :: text))
               = false).
  { apply Nat.eqb_neq. pose proof (drop_while_length is_space text).
    cbn [length]. lia. }
  rewrite Hl, andb_false_r. cbn [negb]. eexists. split; reflexivity.
Qed.

Lemma subst_multi_spaces pv text must_advance out :
  subst multi_spaces_re (expand [TLit space]) pv text must_advance out ->
  no_double_space out = true /\ split out = split text /\ same_start text out.
Proof.
  induction 1 as [pv text ma st' out E _ (IH1 & IH2 & IH3)
                 |pv c text ma out E _ (IH1 & IH2 & IH3)|].
  - destruct text as [|c [|c' text]];
      try (rewrite match_here_multi_spaces in E by reflexivity; discriminate).
    destruct (is_space c) eqn:Hc;
      [|rewrite match_here_multi_spaces in E by (cbn; now rewrite Hc);
        discriminate].
    destruct (is_space c') eqn:Hc';
      [|rewrite match_here_multi_spaces in E
          by (cbn; rewrite Hc'; apply andb_false_r);
        discriminate].
    destruct (match_here_multi_spaces_run pv c c' text ma Hc Hc')
      as (st'' & E' & Hr).
    rewrite E in E'. injection E' as <-. rewrite Hr in *.
    unfold expand. cbn [flat_map app].
    pose proof (drop_while_stops is_space text) as Hs.
    split; [|split].
    + destruct (drop_while is_space text) as [|d r]; destruct out as [|e out'];
        cbn [same_start] in IH3; try contradiction; [reflexivity|].
      cbn [stops] in Hs.
      change (no_double_space (space :: e :: out'))
        with (negb (is_space space && is_space e) && no_double_space (e :: out')).
      rewrite <- IH3, Hs, andb_false_r. exact IH1.
    + rewrite split_cons_space by reflexivity. rewrite IH2.
      rewrite !split_cons_space by assumption. apply split_drop_while.
    + cbn [same_start]. now rewrite Hc.
  - split; [|split].
    + destruct out as [|e out']; [reflexivity|].
      change (no_double_space (c :: e :: out'))
        with (negb (is_space c && is_space e) && no_double_space (e :: out')).
      rewrite IH1, andb_true_r. apply negb_true_iff.
      destruct (is_space c) eqn:Hc; [|reflexivity].
      destruct (is_space e) eqn:He; [|reflexivity]. exfalso.
      destruct text as [|d text']; cbn [same_start] in IH3; [contradiction|].
      rewrite He in IH3.
      destruct (match_here_multi_spaces_run pv c d text' ma Hc IH3)
        as (st'' & E' & _).
      congruence.
    + rewrite !split_eq. destruct (is_space c); [exact IH2|].
      destruct text as [|d text']; destruct out as [|e out'];
        cbn [same_start] in IH3; try contradiction; [reflexivity|].
      now rewrite IH3, IH2.
    + cbn [same_start]. reflexivity.
  - repeat split.
Qed.

(** X11: in the result of [remove_spaces] no two whitespace characters
    stand in a row, and the words are those of the text. *)
Theorem remove_spaces_collapses text :
  no_double_space (remove_spaces text) = true
  /\ split (remove_spaces text) = split text.
Proof.
  destruct (subst_multi_spaces None text false (remove_spaces text))
    as (H1 & H2 & _); [apply re_sub_subst|].
  now split.
Qed.

(** X12: [remove_spaces] touches runs of two or more whitespace characters
    only: a text without such a run is returned as it is (a single tab or
    newline is not turned into a space), and so is its own result. *)
Theorem remove_spaces_idempotent text :
  (no_double_space text = true -> remove_spaces text = text)
  /\ remove_spaces (remove_spaces text) = remove_spaces text.
Proof.
  split; [apply remove_spaces_id|].
  apply remove_spaces_id.
  destruct (subst_multi_spaces None text false (remove_spaces text))
    as (H1 & _); [apply re_sub_subst|exact H1].
Qed.

(** ** Tagging twice *)

Lemma last_of_cons pv c pre : last_of pv (c :: pre) = last_of (Some c) pre.
Proof. destruct pre as [|d pre]; [reflexivity|]. cbn [last_of]. now rewrite last_shift. Qed.

Lemma last_of_app pv a w :
  w <> [] -> last_of pv (a ++ w) = Some (last w space).
Proof.
  revert pv. induction a as [|c a IH]; intros pv Hw.
  - destruct w as [|d w]; [congruence|]. cbn [app last_of].
    now rewrite last_shift.
  - cbn [app]. rewrite last_of_cons. now apply IH.
Qed.

Lemma quiet_app pv a b :
  quiet pv (a ++ b) = quiet pv a && quiet (last_of pv a) b.
Proof.
  revert pv. induction a as [|c a IH]; intros pv; [reflexivity|].
  cbn [app quiet]. rewrite IH, last_of_cons. now rewrite andb_assoc.
Qed.

Lemma quiet_lower pv w :
  word_char pv = true -> lower_word w -> quiet pv w = true.
Proof.
  intros Hpv Hw. revert pv Hpv.
  induction Hw as [|c w Hc _ IH]; intros pv Hpv; [reflexivity|].
  cbn [quiet]. rewrite Hpv. cbn [orb andb]. apply IH. cbn [word_char].
  now apply lower_is_word.
Qed.

Lemma cue_start_not_space c : is_space c = true -> cue_start c = false.
Proof. by_table c. Qed.

Lemma quiet_spaces pv ws :
  Forall (fun c => is_space c = true) ws -> quiet pv ws = true.
Proof.
  intros H. revert pv. induction H as [|c ws Hc _ IH]; intros pv;
    [reflexivity|].
  cbn [quiet]. rewrite (cue_start_not_space c Hc), orb_true_r. apply IH.
Qed.

Lemma quiet_NEG pv : quiet pv NEG = true.
Proof. cbn. now rewrite orb_true_r. Qed.

Lemma occurrence_needs pv text cue ws w rest' :
  occurrence pv text cue ws w rest' ->
  word_char pv = false
  /\ exists c text', text = c :: text' /\ cue_start c = true.
Proof.
  intros O. destruct O as [cue ws w rest' Hcue Hb _ _ _ _ _]. split.
  - destruct pv; [exact Hb|reflexivity].
  - unfold cues in Hcue. simpl in Hcue.
    destruct Hcue as [<-|[<-|[<-|[<-|[]]]]]; eexists _, _; split; reflexivity.
Qed.

Lemma quiet_no_occurrence pv c text :
  word_char pv || negb (cue_start c) = true ->
  forall cue ws w rest', ~ occurrence pv (c :: text) cue ws w rest'.
Proof.
  intros H cue ws w rest' O.
  apply occurrence_needs in O as (Hpv & c' & text' & E & Hc).
  injection E as <- _. rewrite Hpv, Hc in H. discriminate.
Qed.

Lemma tagged_copy_run pre : forall pv text,
  quiet pv pre = true ->
  tagged (last_of pv pre) text text ->
  tagged pv (pre ++ text) (pre ++ text).
Proof.
  induction pre as [|c pre IH]; intros pv text Hq H; [exact H|].
  cbn [quiet] in Hq. apply andb_true_iff in Hq as [Hc Hq].
  cbn [app]. apply tagged_copy; [now apply quiet_no_occurrence|].
  apply IH; [exact Hq|]. now rewrite <- (last_of_cons pv).
Qed.

Lemma prefix_before (c : ascii) (b : str) : forall x a y,
  a ++ c :: b = x ++ y -> ~ In c x -> exists z, a = x ++ z.
Proof.
  induction x as [|d x IH]; intros a y E Hn; [now exists a|].
  destruct a as [|e a]; cbn [app] in E.
  - injection E as -> _. exfalso. apply Hn. now left.
  - injection E as -> E. destruct (IH a y E) as [z ->].
    + intros H. apply Hn. now right.
    + now exists z.
Qed.

(** Up to the first [N] the result is the text. *)
Lemma tagged_prefix pv text out :
  tagged pv text out ->
  forall x y, out = x ++ y -> ~ In "N"%char x -> exists y', text = x ++ y'.
Proof.
  induction 1 as [pv|pv text cue ws w rest' out O _ _|pv c text out _ _ IH];
    intros x y E Hn.
  - symmetry in E. apply app_eq_nil in E as [-> _]. now exists [].
  - destruct O as [cue ws w rest' _ _ _ _ _ _ _].
    assert (E' : (cue ++ ws) ++ "N"%char :: ("E"%char :: "G"%char :: w ++ out)
                 = x ++ y) by (rewrite <- E, <- app_assoc; reflexivity).
    destruct (prefix_before _ _ x _ y E' Hn) as [z Ez].
    exists (z ++ w ++ rest').
    rewrite (app_assoc x z), <- Ez, <- app_assoc. reflexivity.
  - destruct x as [|d x]; [now exists (c :: text)|].
    cbn [app] in E. injection E as <- E.
    destruct (IH x y E) as [y' ->].
    + intros H. apply Hn. now right.
    + now exists y'.
Qed.

Lemma occurrence_intro pv cue ws l text :
  In cue cues ->
  match pv with Some c => is_word c = false | None => True end ->
  ws <> [] -> Forall (fun c => is_space c = true) ws ->
  is_lower l = true ->
  occurrence pv (cue ++ ws ++ l :: text) cue ws
             (l :: take_while is_lower text) (drop_while is_lower text).
Proof.
  intros Hcue Hb Hws Hsp Hl.
  rewrite (take_drop_while is_lower text) at 1.
  change (l :: take_while is_lower text ++ drop_while is_lower text)
    with ((l :: take_while is_lower text) ++ drop_while is_lower text).
  constructor; try assumption; [discriminate| |apply drop_while_stops].
  constructor; [assumption|apply take_while_all].
Qed.

Lemma not_N_lower_or_space c :
  is_lower c = true \/ is_space c = true -> c <> "N"%char.
Proof. intros [H|H] ->; discriminate. Qed.

(** Tagging brings no cue into being that was not there. *)
Lemma tagged_no_new_occurrence pv text out :
  tagged pv text out ->
  (forall cue ws w rest', ~ occurrence pv text cue ws w rest') ->
  forall cue ws w rest', ~ occurrence pv out cue ws w rest'.
Proof.
  intros H Hno cue ws w rest' O.
  inversion O as [? ? ? ? Hcue Hb Hws Hsp Hw Hlo Hs E]; subst.
  destruct w as [|l w']; [congruence|]. inversion Hlo as [|? ? Hl _]; subst.
  destruct (tagged_prefix pv text _ H (cue ++ ws ++ [l]) (w' ++ rest'))
    as [y' Ey].
  - rewrite <- !app_assoc. reflexivity.
  - rewrite !in_app_iff. intros [Hin|[Hin|[Hin|[]]]].
    + pose proof (cue_lower cue Hcue) as Hc. unfold lower_word in Hc.
      rewrite Forall_forall in Hc.
      now apply (not_N_lower_or_space "N"%char (or_introl (Hc _ Hin))).
    + rewrite Forall_forall in Hsp.
      now apply (not_N_lower_or_space "N"%char (or_intror (Hsp _ Hin))).
    + subst l. discriminate.
  - apply (Hno cue ws (l :: take_while is_lower y') (drop_while is_lower y')).
    rewrite Ey, <- !app_assoc. cbn [app].
    now apply occurrence_intro.
Qed.

Lemma tagged_start_blocked pv cue ws w text :
  In cue cues -> ws <> [] -> Forall (fun c => is_space c = true) ws ->
  forall cue' ws' w' rest',
    ~ occurrence pv (cue ++ ws ++ NEG ++ w ++ text) cue' ws' w' rest'.
Proof.
  intros Hcue Hws Hsp cue' ws' w' rest' O.
  inversion O as [? ? ? ? Hcue' _ Hws' Hsp' Hw' Hlo' _ E]; subst.
  assert (Ec : cue' = cue).
  { destruct ws as [|c ws]; [congruence|].
    destruct ws' as [|c' ws']; [congruence|].
    inversion Hsp as [|? ? Hc _]; inversion Hsp' as [|? ? Hc' _]; subst.
    cbn [app] in E.
    exact (cue_unique cue' cue c' c _ _ Hcue' Hcue Hc' Hc E). }
  subst cue'. apply app_inv_head in E.
  destruct w' as [|l w'']; [congruence|]. inversion Hlo'; subst.
  destruct (run_unique is_space ws' ws ((l :: w'') ++ rest') (NEG ++ w ++ text))
    as [_ E']; auto.
  - cbn. now apply lower_not_space.
  - reflexivity.
  - cbn in E'. injection E' as -> _. discriminate.
Qed.

Lemma tagged_fixed pv text out : tagged pv text out -> tagged pv out out.
Proof.
  induction 1 as [pv|pv text cue ws w rest' out O H IH|pv c text out Hno H IH].
  - constructor.
  - destruct O as [cue ws w rest' Hcue Hb Hws Hsp Hw Hlo Hs].
    pose proof (cue_lower cue Hcue) as Hcl.
    destruct cue as [|c0 cue']; [now apply cue_nonempty in Hcue|].
    inversion Hcl as [|? ? Hc0 Hcl']; subst.
    cbn [app]. apply tagged_copy.
    + exact (tagged_start_blocked pv (c0 :: cue') ws w out Hcue Hws Hsp).
    + replace (cue' ++ ws ++ NEG ++ w ++ out)
        with ((cue' ++ ws ++ NEG ++ w) ++ out)
        by (rewrite <- !app_assoc; reflexivity).
      apply tagged_copy_run.
      * assert (Q1 : quiet (Some c0) cue' = true)
          by (apply quiet_lower; [cbn; now apply lower_is_word|assumption]).
        rewrite !quiet_app, Q1, (quiet_spaces _ ws Hsp), quiet_NEG.
        cbn [andb]. apply quiet_lower; [reflexivity|assumption].
      * rewrite !app_assoc, last_of_app by assumption. exact IH.
  - apply tagged_copy; [|exact IH].
    exact (tagged_no_new_occurrence pv (c :: text) (c :: out)
             (tagged_copy pv c text out Hno H) Hno).
Qed.

(** X13: tagging a tagged text changes nothing: a word that carries the
    marker starts with a capital and is not tagged again, and no cue comes
    into being. *)
Theorem negation_handle_idempotent text :
  negation_handle (negation_handle text) = negation_handle text.
Proof.
  symmetry. apply (tagged_functional None (negation_handle text)).
  - apply (tagged_fixed None text), negation_handle_tagged.
  - apply negation_handle_tagged.
Qed.

(** ** The run collapse of [remove_noise_texts] *)











(** ** No mention and no hashtag is left *)





















(** ** The pipeline as a whole *)

(** X16: [data_cleaning] raises in one case only: the lemmatiser is on and
    the tagger hands back an empty tag for one of the words that
    [remove_short_words] kept. *)
Theorem data_cleaning_raises_iff
  contractions_fix stop_words pos_tag wordnet_lemmatize
  text handle_neg remove_all_stopword is_lemmatized :
  data_cleaning contractions_fix stop_words pos_tag wordnet_lemmatize
    text handle_neg remove_all_stopword is_lemmatized = None
  <-> is_lemmatized = true
      /\ Exists (fun wt => snd wt = [])
                (pos_tag (long_words
                            (tagged_text contractions_fix stop_words
                                         text handle_neg))).
Proof.
  unfold data_cleaning. cbv zeta.
  fold (tagged_text contractions_fix stop_words text handle_neg).
  unfold remove_short_words.
  fold (long_words (tagged_text contractions_fix stop_words text handle_neg)).
  pose proof (long_words_tokens
                (tagged_text contractions_fix stop_words text handle_neg))
    as Htok.
  rewrite remove_spaces_id by now apply no_double_space_join.
  destruct is_lemmatized.
  - unfold lemmatize. rewrite split_join by assumption.
    rewrite <- (lemmatize_loop_none wordnet_lemmatize).
    destruct (lemmatize_loop wordnet_lemmatize _); cbn [option_map].
    + split; [discriminate|]. intros [_ H]. discriminate.
    + split; auto.
  - split; [discriminate|]. intros [H _]. discriminate.
Qed.

(** X17: with the lemmatiser off, [remove_spaces] and the final [strip]
    find nothing to do: the result is what [remove_short_words] returns,
    after [remove_stopwords] when [remove_all_stopword] is on. *)
Theorem data_cleaning_without_lemmatizer
  contractions_fix stop_words pos_tag wordnet_lemmatize
  text handle_neg remove_all_stopword :
  data_cleaning contractions_fix stop_words pos_tag wordnet_lemmatize
    text handle_neg remove_all_stopword false
  = Some (let words :=
            remove_short_words
              (remove_non_alpha
                 (tagged_text contractions_fix stop_words text handle_neg)) in
          if remove_all_stopword
          then remove_stopwords stop_words words false
          else words).
Proof.
  unfold data_cleaning. cbv zeta.
  fold (tagged_text contractions_fix stop_words text handle_neg).
  unfold remove_short_words.
  fold (long_words (tagged_text contractions_fix stop_words text handle_neg)).
  pose proof (long_words_tokens
                (tagged_text contractions_fix stop_words text handle_neg))
    as Htok.
  rewrite remove_spaces_id by now apply no_double_space_join.
  destruct remove_all_stopword.
  - rewrite remove_stopwords_kept, split_join by assumption.
    now rewrite strip_join by now apply Forall_filter_keep.
  - now rewrite strip_join.
Qed.

(** ** The characters of the cleaned text *)





